(** * operatorcmds.c: DefineOperator, ValidateRestrictionEstimator,
    ValidateJoinEstimator, RemoveOperatorById and AlterOperator.

    Shallow embedding.  Catalog lookups that live outside this file of the
    backend (function and type resolution, privilege checks, parsing of
    DefElem arguments) are fields of an environment record [Env], so every
    theorem holds for any catalog contents.  Effects are threaded through a
    small state/error monad [M]: the state holds the pg_operator rows and a
    trace of the calls the code makes to its collaborators. *)

From Stdlib Require Import NArith List Bool Lia.
From stdpp Require Import base gmap strings.
Import ListNotations.

Open Scope N_scope.

(** ** Object identifiers and well-known type OIDs (pg_type_d.h) *)

Definition Oid := N.
Definition InvalidOid : Oid := 0.
Definition OidIsValid (o : Oid) : bool := negb (N.eqb o InvalidOid).

Definition BOOLOID : Oid := 16.
Definition INT2OID : Oid := 21.
Definition INT4OID : Oid := 23.
Definition OIDOID : Oid := 26.
Definition FLOAT8OID : Oid := 701.
Definition INTERNALOID : Oid := 2281.

(** ** Parse nodes handed over by the grammar *)

Record TypeName := mkTypeName {
  tn_names : list string;
  setof : bool
}.

(** The argument of a DefElem: a (qualified) name, a type name, a number
    or a string constant. *)
Inductive Node :=
| NString (s : string)
| NQualName (l : list string)
| NTypeName (t : TypeName)
| NInteger (z : Z).

Record DefElem := mkDefElem {
  defname : string;
  arg : option Node        (* NULL for NONE *)
}.

Record ObjectWithArgs := mkObjectWithArgs {
  objname : list string;
  objargs : list (option TypeName)
}.

Record AlterOperatorStmt := mkAlterOperatorStmt {
  opername : ObjectWithArgs;
  options : list DefElem
}.

(** ** Errors (elog.h / errcodes.h) *)

Inductive errcode :=
| ERRCODE_INVALID_FUNCTION_DEFINITION
| ERRCODE_INVALID_OBJECT_DEFINITION
| ERRCODE_AMBIGUOUS_FUNCTION
| ERRCODE_UNDEFINED_FUNCTION
| ERRCODE_UNDEFINED_OBJECT
| ERRCODE_SYNTAX_ERROR
| ERRCODE_INSUFFICIENT_PRIVILEGE
| ERRCODE_INTERNAL_ERROR.

Inductive AclResult := ACLCHECK_OK | ACLCHECK_NO_PRIV | ACLCHECK_NOT_OWNER.

(** aclresult == ACLCHECK_OK *)
Definition acl_ok (r : AclResult) : bool :=
  match r with ACLCHECK_OK => true | _ => false end.

Inductive ObjectType := OBJECT_SCHEMA | OBJECT_FUNCTION | OBJECT_OPERATOR.

(** A raised ERROR.  Format strings are the source's, with the quotes
    around %s dropped. *)
Inductive err :=
| Ereport (code : errcode) (fmt : string) (args : list string)
          (detail : option string)
  (** LookupFuncName with missing_ok = false: function %s does not exist *)
| FuncNotFound (name : list string) (argtypes : list Oid)
  (** aclcheck_error / aclcheck_error_type *)
| AclError (res : AclResult) (kind : ObjectType) (name : string)
| AclErrorType (res : AclResult) (typid : Oid)
  (** elog(ERROR, ...): internal error *)
| Elog (fmt : string) (oid : Oid)
  (** an ERROR raised inside a collaborator (parser helpers, type lookup) *)
| ExtError (code : errcode) (what : string).

Definition err_code (e : err) : errcode :=
  match e with
  | Ereport c _ _ _ => c
  | FuncNotFound _ _ => ERRCODE_UNDEFINED_FUNCTION
  | AclError _ _ _ => ERRCODE_INSUFFICIENT_PRIVILEGE
  | AclErrorType _ _ => ERRCODE_INSUFFICIENT_PRIVILEGE
  | Elog _ _ => ERRCODE_INTERNAL_ERROR
  | ExtError c _ => c
  end.

(** ** The pg_operator catalog *)

Record FormData_pg_operator := mkForm {
  oid : Oid;
  oprname : string;
  oprnamespace : Oid;
  oprowner : Oid;
  oprcanmerge : bool;
  oprcanhash : bool;
  oprleft : Oid;
  oprright : Oid;
  oprresult : Oid;
  oprcom : Oid;
  oprnegate : Oid;
  oprcode : Oid;
  oprrest : Oid;
  oprjoin : Oid
}.

Definition set_oprcom (f : FormData_pg_operator) (v : Oid) :=
  mkForm (oid f) (oprname f) (oprnamespace f) (oprowner f) (oprcanmerge f)
    (oprcanhash f) (oprleft f) (oprright f) (oprresult f) v (oprnegate f)
    (oprcode f) (oprrest f) (oprjoin f).
Definition set_oprnegate (f : FormData_pg_operator) (v : Oid) :=
  mkForm (oid f) (oprname f) (oprnamespace f) (oprowner f) (oprcanmerge f)
    (oprcanhash f) (oprleft f) (oprright f) (oprresult f) (oprcom f) v
    (oprcode f) (oprrest f) (oprjoin f).
Definition set_oprrest (f : FormData_pg_operator) (v : Oid) :=
  mkForm (oid f) (oprname f) (oprnamespace f) (oprowner f) (oprcanmerge f)
    (oprcanhash f) (oprleft f) (oprright f) (oprresult f) (oprcom f)
    (oprnegate f) (oprcode f) v (oprjoin f).
Definition set_oprjoin (f : FormData_pg_operator) (v : Oid) :=
  mkForm (oid f) (oprname f) (oprnamespace f) (oprowner f) (oprcanmerge f)
    (oprcanhash f) (oprleft f) (oprright f) (oprresult f) (oprcom f)
    (oprnegate f) (oprcode f) (oprrest f) v.

(** A heap tuple.  Its item pointer [t_self] names the row version: the
    operator OID and a version number that every update bumps. *)
Record HeapTuple := mkHeapTuple {
  t_self : Oid * N;
  t_data : FormData_pg_operator
}.

(** Calls made to collaborators, recorded in order. *)
Inductive event :=
| EvWarning (code : errcode) (fmt : string) (args : list string)
| EvLookupFuncName (name : list string) (nargs : nat) (argtypes : list Oid)
                   (missing_ok : bool)
| EvSearchSysCache (key : Oid)
| EvOperatorUpd (baseId commId negId : Oid) (isDelete : bool)
| EvTupleUpdate (tid : Oid * N)
| EvTupleDelete (tid : Oid * N)
| EvMakeOperatorDependencies (key : Oid)
| EvPostAlterHook (key : Oid).

Record State := mkState {
  pg_operator : gmap Oid HeapTuple;
  trace : list event
}.

(** ** The monad: state, trace and ERROR *)

Definition M (A : Type) := State -> State * (err + A).

Definition ret {A} (a : A) : M A := fun s => (s, inr a).
Definition bind {A B} (m : M A) (k : A -> M B) : M B :=
  fun s => match m s with
           | (s', inl e) => (s', inl e)
           | (s', inr a) => k a s'
           end.
Definition raise {A} (e : err) : M A := fun s => (s, inl e).
Definition emit (ev : event) : M unit :=
  fun s => (mkState (pg_operator s) (trace s ++ [ev]), inr tt).
(** a value computed by a collaborator that may raise ERROR *)
Definition lift {A} (r : err + A) : M A := fun s => (s, r).

Notation "x <- m ;; k" := (bind m (fun x => k))
  (at level 100, m at next level, k at level 200, right associativity).
Notation "m ;;; k" := (bind m (fun _ => k))
  (at level 100, k at level 200, right associativity).

Definition ereport {A} (code : errcode) (fmt : string) (args : list string)
  : M A := raise (Ereport code fmt args None).

(** ** The catalog environment *)

Record Env := mkEnv {
  (** namespace.c: QualifiedNameGetCreationNamespace *)
  QualifiedNameGetCreationNamespace : list string -> err + (Oid * string);
  get_namespace_name : Oid -> string;
  (** define.c: defGetQualifiedName, defGetTypeName, defGetBoolean *)
  defGetQualifiedName : DefElem -> err + list string;
  defGetTypeName : DefElem -> err + TypeName;
  defGetBoolean : DefElem -> err + bool;
  (** parse_type.c: typenameTypeId; raises when the type does not exist *)
  typenameTypeId : TypeName -> err + positive;
  (** exact-signature lookup behind LookupFuncName (parse_func.c) *)
  func_lookup : list string -> list Oid -> option positive;
  get_func_rettype : Oid -> Oid;
  (** parse_oper.c: LookupOperWithArgs with missing_ok = false *)
  LookupOperWithArgs : ObjectWithArgs -> err + Oid;
  (** aclchk.c, for the current user (GetUserId) *)
  pg_namespace_aclcheck_create : Oid -> AclResult;
  pg_type_aclcheck_usage : Oid -> AclResult;
  pg_proc_aclcheck_execute : Oid -> AclResult;
  pg_oper_ownercheck : Oid -> bool
}.

Fixpoint NameListToString (l : list string) : string :=
  match l with
  | [] => EmptyString
  | [x] => x
  | x :: r => x +:+ "." +:+ NameListToString r
  end.

(** ** DefineOperator *)

(** The local variables that the parameter loop of DefineOperator fills. *)
Record DefineParams := mkDefineParams {
  canMerge : bool;
  canHash : bool;
  functionName : list string;
  typeName1 : option TypeName;
  typeName2 : option TypeName;
  commutatorName : list string;
  negatorName : list string;
  restrictionName : list string;
  joinName : list string
}.

(** Their initialisers in DefineOperator. *)
Definition DefineParams_init : DefineParams :=
  mkDefineParams false false [] None None [] [] [] [].

Definition set_canMerge p v := mkDefineParams v (canHash p) (functionName p)
  (typeName1 p) (typeName2 p) (commutatorName p) (negatorName p)
  (restrictionName p) (joinName p).
Definition set_canHash p v := mkDefineParams (canMerge p) v (functionName p)
  (typeName1 p) (typeName2 p) (commutatorName p) (negatorName p)
  (restrictionName p) (joinName p).
Definition set_functionName p v := mkDefineParams (canMerge p) (canHash p) v
  (typeName1 p) (typeName2 p) (commutatorName p) (negatorName p)
  (restrictionName p) (joinName p).
Definition set_typeName1 p v := mkDefineParams (canMerge p) (canHash p)
  (functionName p) v (typeName2 p) (commutatorName p) (negatorName p)
  (restrictionName p) (joinName p).
Definition set_typeName2 p v := mkDefineParams (canMerge p) (canHash p)
  (functionName p) (typeName1 p) v (commutatorName p) (negatorName p)
  (restrictionName p) (joinName p).
Definition set_commutatorName p v := mkDefineParams (canMerge p) (canHash p)
  (functionName p) (typeName1 p) (typeName2 p) v (negatorName p)
  (restrictionName p) (joinName p).
Definition set_negatorName p v := mkDefineParams (canMerge p) (canHash p)
  (functionName p) (typeName1 p) (typeName2 p) (commutatorName p) v
  (restrictionName p) (joinName p).
Definition set_restrictionName p v := mkDefineParams (canMerge p) (canHash p)
  (functionName p) (typeName1 p) (typeName2 p) (commutatorName p)
  (negatorName p) v (joinName p).
Definition set_joinName p v := mkDefineParams (canMerge p) (canHash p)
  (functionName p) (typeName1 p) (typeName2 p) (commutatorName p)
  (negatorName p) (restrictionName p) v.

(** C's test of a pointer against NULL *)
Definition nonnull {A} (o : option A) : bool :=
  match o with Some _ => true | None => false end.

(** C's test of a List pointer against NIL *)
Definition nonnil {A} (l : list A) : bool :=
  match l with [] => false | _ => true end.

(** ** Catalog access (syscache and indexing.c) *)

Definition get_state : M State := fun s => (s, inr s).
Definition put_pg_operator (m : gmap Oid HeapTuple) : M unit :=
  fun s => (mkState m (trace s), inr tt).

(** SearchSysCache1(OPEROID, key) and SearchSysCacheCopy1(OPEROID, key):
    the current version of the row, or an invalid tuple. *)
Definition SearchSysCache1 (key : Oid) : M (option HeapTuple) :=
  emit (EvSearchSysCache key) ;;;
  s <- get_state ;;
  ret (pg_operator s !! key).

(** CatalogTupleUpdate(rel, otid, tup): writes a new version of the row
    whose current version is [otid]; an outdated [otid] raises, as
    simple_heap_update does. *)
Definition CatalogTupleUpdate (otid : Oid * N) (tup : HeapTuple)
    : M HeapTuple :=
  emit (EvTupleUpdate otid) ;;;
  s <- get_state ;;
  match pg_operator s !! otid.1 with
  | Some cur =>
      if bool_decide (t_self cur = otid) then
        let ntup := mkHeapTuple (otid.1, N.succ otid.2) (t_data tup) in
        put_pg_operator (<[otid.1 := ntup]> (pg_operator s)) ;;;
        ret ntup
      else raise (Elog "tuple already updated by self" otid.1)
  | None => raise (Elog "tuple already updated by self" otid.1)
  end.

(** CatalogTupleDelete(rel, tid): deletes the row version [tid]; an
    outdated [tid] raises, as simple_heap_delete does. *)
Definition CatalogTupleDelete (tid : Oid * N) : M unit :=
  emit (EvTupleDelete tid) ;;;
  s <- get_state ;;
  match pg_operator s !! tid.1 with
  | Some cur =>
      if bool_decide (t_self cur = tid)
      then put_pg_operator (delete tid.1 (pg_operator s))
      else raise (Elog "tuple already updated by self" tid.1)
  | None => raise (Elog "tuple already updated by self" tid.1)
  end.

(** Modelled from the spec: OperatorUpd of pg_operator.c (the storage
    collaborator's clear_reciprocal_link, section 6 of the spec).  With
    [isDelete], the commutator's link back to [baseId] and the negator's
    link back to [baseId] are cleared; otherwise an unset link of the
    commutator (negator) is pointed at [baseId].  The commutator is handled
    before the negator; [OperatorUpd_link] handles one of the two. *)
Definition OperatorUpd_link (link : FormData_pg_operator -> Oid)
    (set_link : FormData_pg_operator -> Oid -> FormData_pg_operator)
    (baseId otherId : Oid) (isDelete : bool) : M unit :=
  s <- get_state ;;
  match (if OidIsValid otherId then pg_operator s !! otherId else None) with
  | Some t =>
      if isDelete then
        (if N.eqb (link (t_data t)) baseId
         then CatalogTupleUpdate (t_self t)
                (mkHeapTuple (t_self t) (set_link (t_data t) InvalidOid)) ;;;
              ret tt
         else ret tt)
      else if negb (OidIsValid (link (t_data t)))
      then CatalogTupleUpdate (t_self t)
             (mkHeapTuple (t_self t) (set_link (t_data t) baseId)) ;;;
           ret tt
      else ret tt
  | None => ret tt
  end.

(** Modelled from the spec: OperatorUpd(baseId, commId, negId, isDelete)
    of pg_operator.c, as the two link updates above. *)
Definition OperatorUpd_model (baseId commId negId : Oid) (isDelete : bool)
    : M unit :=
  emit (EvOperatorUpd baseId commId negId isDelete) ;;;
  OperatorUpd_link oprcom set_oprcom baseId commId isDelete ;;;
  OperatorUpd_link oprnegate set_oprnegate baseId negId isDelete.

(** ** RemoveOperatorById *)

Section Remove.

(** The link-clearing collaborator RemoveOperatorById calls. *)
Variable OperatorUpd : Oid -> Oid -> Oid -> bool -> M unit.

Definition RemoveOperatorById (operOid : Oid) : M unit :=
  tup <- SearchSysCache1 operOid ;;
  match tup with
  | None => raise (Elog "cache lookup failed for operator %u" operOid)
  | Some tup =>
      let op := t_data tup in
      (* Reset links from commutator and negator, if any.  In case of a
         self-commutator or self-negator, re-fetch the updated tuple. *)
      tup <- (if OidIsValid (oprcom op) || OidIsValid (oprnegate op) then
                OperatorUpd operOid (oprcom op) (oprnegate op) true ;;;
                if N.eqb operOid (oprcom op) || N.eqb operOid (oprnegate op)
                then
                  tup' <- SearchSysCache1 operOid ;;
                  match tup' with
                  | None =>
                      raise (Elog "cache lookup failed for operator %u" operOid)
                  | Some t => ret t
                  end
                else ret tup
              else ret tup) ;;
      CatalogTupleDelete (t_self tup)
  end.

End Remove.

(** The local variables that the option loop of AlterOperator fills. *)
Record AlterOptions := mkAlterOptions {
  alter_restrictionName : list string;
  updateRestriction : bool;
  alter_joinName : list string;
  updateJoin : bool
}.

Definition AlterOptions_init : AlterOptions := mkAlterOptions [] false [] false.

Section Commands.

Variable env : Env.

(** LookupFuncName(funcname, nargs, argtypes, missing_ok): only the first
    [nargs] entries of the [argtypes] array are read. *)
Definition LookupFuncName (funcname : list string) (nargs : nat)
    (argtypes : list Oid) (missing_ok : bool) : M Oid :=
  let tys := firstn nargs argtypes in
  emit (EvLookupFuncName funcname nargs tys missing_ok) ;;;
  match func_lookup env funcname tys with
  | Some f => ret (Npos f)
  | None => if missing_ok then ret InvalidOid
            else raise (FuncNotFound funcname tys)
  end.

Definition ValidateRestrictionEstimator (restrictionName : list string)
    : M Oid :=
  let typeId := [INTERNALOID; OIDOID; INTERNALOID; INT4OID] in
  restrictionOid <- LookupFuncName restrictionName 4 typeId false ;;
  (if negb (N.eqb (get_func_rettype env restrictionOid) FLOAT8OID)
   then ereport ERRCODE_INVALID_OBJECT_DEFINITION
          "restriction estimator function %s must return type %s"
          [NameListToString restrictionName; "float8"]
   else ret tt) ;;;
  let aclresult := pg_proc_aclcheck_execute env restrictionOid in
  (if negb (acl_ok aclresult)
   then raise (AclError aclresult OBJECT_FUNCTION
                 (NameListToString restrictionName))
   else ret tt) ;;;
  ret restrictionOid.

Definition ValidateJoinEstimator (joinName : list string) : M Oid :=
  let typeId := [INTERNALOID; OIDOID; INTERNALOID; INT2OID; INTERNALOID] in
  joinOid <- LookupFuncName joinName 5 typeId true ;;
  joinOid2 <- LookupFuncName joinName 4 typeId true ;;
  joinOid <- (if OidIsValid joinOid
              then (if OidIsValid joinOid2
                    then ereport ERRCODE_AMBIGUOUS_FUNCTION
                           "join estimator function %s has multiple matches"
                           [NameListToString joinName]
                    else ret tt) ;;; ret joinOid
              else
                let joinOid := joinOid2 in
                (* If not found, reference the 5-argument signature *)
                if negb (OidIsValid joinOid)
                then LookupFuncName joinName 5 typeId false
                else ret joinOid) ;;
  (if negb (N.eqb (get_func_rettype env joinOid) FLOAT8OID)
   then ereport ERRCODE_INVALID_OBJECT_DEFINITION
          "join estimator function %s must return type %s"
          [NameListToString joinName; "float8"]
   else ret tt) ;;;
  let aclresult := pg_proc_aclcheck_execute env joinOid in
  (if negb (acl_ok aclresult)
   then raise (AclError aclresult OBJECT_FUNCTION (NameListToString joinName))
   else ret tt) ;;;
  ret joinOid.

(** One iteration of the loop over the definition list (lines 101-155). *)
Definition DefineOperator_param (p : DefineParams) (defel : DefElem)
    : M DefineParams :=
  if String.eqb (defname defel) "leftarg" then
    t <- lift (defGetTypeName env defel) ;;
    if setof t
    then ereport ERRCODE_INVALID_FUNCTION_DEFINITION
           "SETOF type not allowed for operator argument" []
    else ret (set_typeName1 p (Some t))
  else if String.eqb (defname defel) "rightarg" then
    t <- lift (defGetTypeName env defel) ;;
    if setof t
    then ereport ERRCODE_INVALID_FUNCTION_DEFINITION
           "SETOF type not allowed for operator argument" []
    else ret (set_typeName2 p (Some t))
  (* "function" and "procedure" are equivalent here *)
  else if String.eqb (defname defel) "function" then
    n <- lift (defGetQualifiedName env defel) ;; ret (set_functionName p n)
  else if String.eqb (defname defel) "procedure" then
    n <- lift (defGetQualifiedName env defel) ;; ret (set_functionName p n)
  else if String.eqb (defname defel) "commutator" then
    n <- lift (defGetQualifiedName env defel) ;; ret (set_commutatorName p n)
  else if String.eqb (defname defel) "negator" then
    n <- lift (defGetQualifiedName env defel) ;; ret (set_negatorName p n)
  else if String.eqb (defname defel) "restrict" then
    n <- lift (defGetQualifiedName env defel) ;; ret (set_restrictionName p n)
  else if String.eqb (defname defel) "join" then
    n <- lift (defGetQualifiedName env defel) ;; ret (set_joinName p n)
  else if String.eqb (defname defel) "hashes" then
    b <- lift (defGetBoolean env defel) ;; ret (set_canHash p b)
  else if String.eqb (defname defel) "merges" then
    b <- lift (defGetBoolean env defel) ;; ret (set_canMerge p b)
  (* These obsolete options are taken as meaning canMerge *)
  else if String.eqb (defname defel) "sort1" then ret (set_canMerge p true)
  else if String.eqb (defname defel) "sort2" then ret (set_canMerge p true)
  else if String.eqb (defname defel) "ltcmp" then ret (set_canMerge p true)
  else if String.eqb (defname defel) "gtcmp" then ret (set_canMerge p true)
  else
    (* WARNING, not ERROR, for historical backwards-compatibility *)
    emit (EvWarning ERRCODE_SYNTAX_ERROR
            "operator attribute %s not recognized" [defname defel]) ;;;
    ret p.

(** foreach(pl, parameters) *)
Fixpoint DefineOperator_params (p : DefineParams) (parameters : list DefElem)
    : M DefineParams :=
  match parameters with
  | [] => ret p
  | defel :: rest =>
      p' <- DefineOperator_param p defel ;; DefineOperator_params p' rest
  end.

Definition aclcheck_type (typid : Oid) : M unit :=
  let aclresult := pg_type_aclcheck_usage env typid in
  if negb (acl_ok aclresult) then raise (AclErrorType aclresult typid)
  else ret tt.

Definition typenameTypeId_opt (t : option TypeName) : M Oid :=
  match t with
  | Some tn => x <- lift (typenameTypeId env tn) ;; ret (Npos x)
  | None => ret InvalidOid
  end.

(** pg_operator.c: OperatorCreate(oprName, oprNamespace, leftTypeId,
    rightTypeId, procedureId, commutatorName, negatorName, restrictionId,
    joinId, canMerge, canHash).  DefineOperator hands its work over to it;
    it is a parameter of the model, acting on the pg_operator rows: it
    returns the new operator's OID and the rows, or raises. *)
Variable OperatorCreate_rows : string -> Oid -> Oid -> Oid -> Oid ->
  list string -> list string -> Oid -> Oid -> bool -> bool ->
  gmap Oid HeapTuple -> err + (Oid * gmap Oid HeapTuple).

Definition OperatorCreate oprName oprNamespace leftTypeId rightTypeId
    procedureId commutatorName negatorName restrictionId joinId canMerge
    canHash : M Oid :=
  fun s =>
    match OperatorCreate_rows oprName oprNamespace leftTypeId rightTypeId
            procedureId commutatorName negatorName restrictionId joinId
            canMerge canHash (pg_operator s) with
    | inl e => (s, inl e)
    | inr (o, rows) => (mkState rows (trace s), inr o)
    end.

Definition DefineOperator (names : list string) (parameters : list DefElem)
    : M Oid :=
  (* Convert list of names to a name and namespace *)
  nsn <- lift (QualifiedNameGetCreationNamespace env names) ;;
  let (oprNamespace, oprName) := nsn in
  (* Check we have creation rights in target namespace *)
  let aclresult := pg_namespace_aclcheck_create env oprNamespace in
  (if negb (acl_ok aclresult)
   then raise (AclError aclresult OBJECT_SCHEMA
                 (get_namespace_name env oprNamespace))
   else ret tt) ;;;
  p <- DefineOperator_params DefineParams_init parameters ;;
  (* make sure we have our required definitions *)
  (if negb (nonnil (functionName p))
   then ereport ERRCODE_INVALID_FUNCTION_DEFINITION
          "operator function must be specified" []
   else ret tt) ;;;
  (* Transform type names to type OIDs *)
  typeId1 <- typenameTypeId_opt (typeName1 p) ;;
  typeId2 <- typenameTypeId_opt (typeName2 p) ;;
  (if negb (OidIsValid typeId1) && negb (OidIsValid typeId2)
   then ereport ERRCODE_INVALID_FUNCTION_DEFINITION
          "operator argument types must be specified" []
   else ret tt) ;;;
  (if negb (OidIsValid typeId2)
   then raise (Ereport ERRCODE_INVALID_FUNCTION_DEFINITION
                 "operator right argument type must be specified" []
                 (Some "Postfix operators are not supported."))
   else ret tt) ;;;
  (if nonnull (typeName1 p) then aclcheck_type typeId1 else ret tt) ;;;
  (if nonnull (typeName2 p) then aclcheck_type typeId2 else ret tt) ;;;
  (* Look up the operator's underlying function. *)
  let '(typeId, nargs) :=
    if negb (OidIsValid typeId1) then ([typeId2], 1%nat)
    else if negb (OidIsValid typeId2) then ([typeId1], 1%nat)
    else ([typeId1; typeId2], 2%nat) in
  functionOid <- LookupFuncName (functionName p) nargs typeId false ;;
  let aclresult := pg_proc_aclcheck_execute env functionOid in
  (if negb (acl_ok aclresult)
   then raise (AclError aclresult OBJECT_FUNCTION
                 (NameListToString (functionName p)))
   else ret tt) ;;;
  let rettype := get_func_rettype env functionOid in
  aclcheck_type rettype ;;;
  (* Look up restriction and join estimators if specified *)
  restrictionOid <- (if nonnil (restrictionName p)
                     then ValidateRestrictionEstimator (restrictionName p)
                     else ret InvalidOid) ;;
  joinOid <- (if nonnil (joinName p)
              then ValidateJoinEstimator (joinName p)
              else ret InvalidOid) ;;
  OperatorCreate oprName oprNamespace typeId1 typeId2 functionOid
    (commutatorName p) (negatorName p) restrictionOid joinOid
    (canMerge p) (canHash p).

(** ** AlterOperator *)

(** The keys CREATE OPERATOR accepts that ALTER OPERATOR cannot change. *)
Definition immutable_key (k : string) : bool :=
  String.eqb k "leftarg" || String.eqb k "rightarg" ||
  String.eqb k "function" || String.eqb k "procedure" ||
  String.eqb k "commutator" || String.eqb k "negator" ||
  String.eqb k "hashes" || String.eqb k "merges".

(** One iteration of the loop over stmt->options (lines 437-481). *)
Definition AlterOperator_option (a : AlterOptions) (defel : DefElem)
    : M AlterOptions :=
  param <- (match arg defel with
            | None => ret []            (* NONE, removes the function *)
            | Some _ => lift (defGetQualifiedName env defel)
            end) ;;
  if String.eqb (defname defel) "restrict" then
    ret (mkAlterOptions param true (alter_joinName a) (updateJoin a))
  else if String.eqb (defname defel) "join" then
    ret (mkAlterOptions (alter_restrictionName a) (updateRestriction a)
           param true)
  else if immutable_key (defname defel) then
    ereport ERRCODE_SYNTAX_ERROR "operator attribute %s cannot be changed"
      [defname defel]
  else
    ereport ERRCODE_SYNTAX_ERROR "operator attribute %s not recognized"
      [defname defel].

Fixpoint AlterOperator_options (a : AlterOptions) (opts : list DefElem)
    : M AlterOptions :=
  match opts with
  | [] => ret a
  | defel :: rest =>
      a' <- AlterOperator_option a defel ;; AlterOperator_options a' rest
  end.

(** pg_operator.c: makeOperatorDependencies(tuple, isUpdate); the model
    records the call and returns the objectId of the ObjectAddress. *)
Definition makeOperatorDependencies (tup : HeapTuple) (isUpdate : bool)
    : M Oid :=
  emit (EvMakeOperatorDependencies (oid (t_data tup))) ;;;
  ret (oid (t_data tup)).

(** Lines 436-538 of AlterOperator: process the options, check ownership,
    resolve the estimators, re-check the stored shape and build the
    modified row (heap_modify_tuple with the replaces[] flags). *)
Definition AlterOperator_modify (oprId : Oid) (oprForm : FormData_pg_operator)
    (opts : list DefElem) : M FormData_pg_operator :=
  (* Process options *)
  a <- AlterOperator_options AlterOptions_init opts ;;
  (* Check permissions. Must be owner. *)
  (if negb (pg_oper_ownercheck env oprId)
   then raise (AclError ACLCHECK_NOT_OWNER OBJECT_OPERATOR (oprname oprForm))
   else ret tt) ;;;
  (* Look up restriction and join estimators if specified *)
  restrictionOid <- (if nonnil (alter_restrictionName a)
                     then ValidateRestrictionEstimator (alter_restrictionName a)
                     else ret InvalidOid) ;;
  joinOid <- (if nonnil (alter_joinName a)
              then ValidateJoinEstimator (alter_joinName a)
              else ret InvalidOid) ;;
  (* Perform additional checks, like OperatorCreate does *)
  (if negb (OidIsValid (oprleft oprForm) && OidIsValid (oprright oprForm))
   then (if OidIsValid joinOid
         then ereport ERRCODE_INVALID_FUNCTION_DEFINITION
                "only binary operators can have join selectivity" []
         else ret tt)
   else ret tt) ;;;
  (if negb (N.eqb (oprresult oprForm) BOOLOID)
   then (if OidIsValid restrictionOid
         then ereport ERRCODE_INVALID_FUNCTION_DEFINITION
                "only boolean operators can have restriction selectivity" []
         else ret tt) ;;;
        (if OidIsValid joinOid
         then ereport ERRCODE_INVALID_FUNCTION_DEFINITION
                "only boolean operators can have join selectivity" []
         else ret tt)
   else ret tt) ;;;
  (* Update the tuple *)
  let f1 := if updateRestriction a then set_oprrest oprForm restrictionOid
            else oprForm in
  let f2 := if updateJoin a then set_oprjoin f1 joinOid else f1 in
  ret f2.

Definition AlterOperator (stmt : AlterOperatorStmt) : M Oid :=
  (* Look up the operator *)
  oprId <- lift (LookupOperWithArgs env (opername stmt)) ;;
  tup <- SearchSysCache1 oprId ;;
  match tup with
  | None => raise (Elog "cache lookup failed for operator %u" oprId)
  | Some tup =>
      newForm <- AlterOperator_modify oprId (t_data tup) (options stmt) ;;
      tup <- CatalogTupleUpdate (t_self tup) (mkHeapTuple (t_self tup) newForm) ;;
      address <- makeOperatorDependencies tup true ;;
      emit (EvPostAlterHook oprId) ;;;
      ret address
  end.

End Commands.

(** ** A small catalog used for concrete runs *)

Definition list_eqb (a b : list string) : bool := bool_decide (a = b).
Definition oids_eqb (a b : list Oid) : bool := bool_decide (a = b).

Definition JOINSEL_ARGS : list Oid :=
  [INTERNALOID; OIDOID; INTERNALOID; INT2OID; INTERNALOID].
Definition RESTSEL_ARGS : list Oid :=
  [INTERNALOID; OIDOID; INTERNALOID; INT4OID].

(** Functions of the sample catalog:
    65 int4eq(int4, int4) returns bool, 1000 f(int4) returns int4,
    101 eqsel (restriction signature), 105 eqjoinsel (5 arguments),
    106 oldjoinsel (4 arguments), 107/108 bothjoinsel (both signatures),
    109 badjoinsel (4 arguments, returns int4), all others float8. *)
Definition sample_func_lookup (name : list string) (tys : list Oid)
    : option positive :=
  if list_eqb name ["int4eq"] && oids_eqb tys [INT4OID; INT4OID] then Some 65%positive
  else if list_eqb name ["f"] && oids_eqb tys [INT4OID] then Some 1000%positive
  else if list_eqb name ["eqsel"] && oids_eqb tys RESTSEL_ARGS then Some 101%positive
  else if list_eqb name ["eqjoinsel"] && oids_eqb tys JOINSEL_ARGS then Some 105%positive
  else if list_eqb name ["oldjoinsel"] && oids_eqb tys (firstn 4 JOINSEL_ARGS)
  then Some 106%positive
  else if list_eqb name ["bothjoinsel"] && oids_eqb tys JOINSEL_ARGS then Some 107%positive
  else if list_eqb name ["bothjoinsel"] && oids_eqb tys (firstn 4 JOINSEL_ARGS)
  then Some 108%positive
  else if list_eqb name ["badjoinsel"] && oids_eqb tys (firstn 4 JOINSEL_ARGS)
  then Some 109%positive
  else None.

Definition sample_rettype (f : Oid) : Oid :=
  if N.eqb f 65 then BOOLOID
  else if N.eqb f 1000 then INT4OID
  else if N.eqb f 109 then INT4OID
  else FLOAT8OID.

Definition sample_qualname (d : DefElem) : err + list string :=
  match arg d with
  | Some (NQualName l) => inr l
  | Some (NString s) => inr [s]
  | Some (NTypeName t) => inr (tn_names t)
  | Some (NInteger _) => inl (ExtError ERRCODE_SYNTAX_ERROR "argument must be a name")
  | None => inl (ExtError ERRCODE_SYNTAX_ERROR "requires a parameter")
  end.

Definition sample_typename (d : DefElem) : err + TypeName :=
  match arg d with
  | Some (NTypeName t) => inr t
  | Some (NString s) => inr (mkTypeName [s] false)
  | Some (NQualName l) => inr (mkTypeName l false)
  | _ => inl (ExtError ERRCODE_SYNTAX_ERROR "requires a parameter")
  end.

Definition sample_boolean (d : DefElem) : err + bool :=
  match arg d with
  | None => inr true
  | Some (NString s) =>
      if String.eqb s "true" then inr true
      else if String.eqb s "false" then inr false
      else inl (ExtError ERRCODE_SYNTAX_ERROR "requires a Boolean value")
  | Some (NInteger z) => inr (negb (Z.eqb z 0))
  | _ => inl (ExtError ERRCODE_SYNTAX_ERROR "requires a Boolean value")
  end.

Definition sample_typeid (t : TypeName) : err + positive :=
  if list_eqb (tn_names t) ["int4"] then inr 23%positive
  else if list_eqb (tn_names t) ["bool"] then inr 16%positive
  else if list_eqb (tn_names t) ["text"] then inr 25%positive
  else inl (ExtError ERRCODE_UNDEFINED_OBJECT "type does not exist").

(** Operators of the sample catalog: 96 is [=] on int4, 500 is the prefix
    operator [@] on int4, 501 is [+] on int4. *)
Definition sample_oper (o : ObjectWithArgs) : err + Oid :=
  if list_eqb (objname o) ["="] then inr 96
  else if list_eqb (objname o) ["@"] then inr 500
  else if list_eqb (objname o) ["+"] then inr 501
  else inl (ExtError ERRCODE_UNDEFINED_FUNCTION "operator does not exist").

Definition env0 : Env :=
  mkEnv (fun names => inr (2200, List.last names EmptyString)) (fun _ => "public"%string)
    sample_qualname sample_typename sample_boolean sample_typeid
    sample_func_lookup sample_rettype sample_oper
    (fun _ => ACLCHECK_OK) (fun _ => ACLCHECK_OK) (fun _ => ACLCHECK_OK)
    (fun _ => true).

Definition empty_state : State := mkState ∅ [].

(** OperatorCreate for the sample runs: the new operator gets OID 700; the
    result type, which OperatorCreate reads from the function, is not
    tracked here. *)
Definition sample_OperatorCreate (oprName : string) (oprNamespace left right
    proc : Oid) (com neg : list string) (rest join : Oid) (canMerge canHash : bool)
    (rows : gmap Oid HeapTuple) : err + (Oid * gmap Oid HeapTuple) :=
  inr (700, <[700 := mkHeapTuple (700, 0)
                       (mkForm 700 oprName oprNamespace 10 canMerge canHash
                          left right InvalidOid InvalidOid InvalidOid proc
                          rest join)]> rows).

(** The rows of the sample catalog: [=] is a boolean binary operator with
    both estimators, [@] a prefix operator returning int4, [+] a binary
    operator returning int4. *)
Definition form_eq : FormData_pg_operator :=
  mkForm 96 "=" 11 10 true true INT4OID INT4OID BOOLOID 96 518 65 101 105.
Definition form_at : FormData_pg_operator :=
  mkForm 500 "@" 2200 10 false false InvalidOid INT4OID INT4OID
    InvalidOid InvalidOid 1000 InvalidOid InvalidOid.
Definition form_plus : FormData_pg_operator :=
  mkForm 501 "+" 11 10 false false INT4OID INT4OID INT4OID
    501 InvalidOid 177 InvalidOid InvalidOid.

Definition sample_catalog : gmap Oid HeapTuple :=
  <[96 := mkHeapTuple (96, 0) form_eq]>
    (<[500 := mkHeapTuple (500, 0) form_at]>
      (<[501 := mkHeapTuple (501, 0) form_plus]> ∅)).

Definition sample_state : State := mkState sample_catalog [].

Definition opname (n : string) : ObjectWithArgs :=
  mkObjectWithArgs [n] [Some (mkTypeName ["int4"] false);
                        Some (mkTypeName ["int4"] false)].

(** The sample catalog seen by a user who owns no operator. *)
Definition env_not_owner : Env :=
  mkEnv (fun names => inr (2200, List.last names EmptyString)) (fun _ => "public"%string)
    sample_qualname sample_typename sample_boolean sample_typeid
    sample_func_lookup sample_rettype sample_oper
    (fun _ => ACLCHECK_OK) (fun _ => ACLCHECK_OK) (fun _ => ACLCHECK_OK)
    (fun _ => false).

(** The sample catalog seen by a user without CREATE on any schema. *)
Definition env_no_create : Env :=
  mkEnv (fun names => inr (2200, List.last names EmptyString)) (fun _ => "public"%string)
    sample_qualname sample_typename sample_boolean sample_typeid
    sample_func_lookup sample_rettype sample_oper
    (fun _ => ACLCHECK_NO_PRIV) (fun _ => ACLCHECK_OK) (fun _ => ACLCHECK_OK)
    (fun _ => true).

(** ** Auxiliary definitions used by the proofs *)

Definition join_ambiguous (joinName : list string) : err :=
  Ereport ERRCODE_AMBIGUOUS_FUNCTION
    "join estimator function %s has multiple matches"
    [NameListToString joinName] None.

Definition join_not_float8 (joinName : list string) : err :=
  Ereport ERRCODE_INVALID_OBJECT_DEFINITION
    "join estimator function %s must return type %s"
    [NameListToString joinName; "float8"] None.

(** Every stored row version carries its own OID in its item pointer. *)
Definition tids_wf (m : gmap Oid HeapTuple) : Prop :=
  map_Forall (fun k t => (t_self t).1 = k) m.

Definition is_tuple_update (ev : event) : Prop :=
  exists tid, ev = EvTupleUpdate tid.

(** What a link update may do: write new versions of row [o] only. *)
Definition link_effect (o : Oid) (m : gmap Oid HeapTuple) (tr : list event)
    (res : State * (err + unit)) : Prop :=
  exists m' inner,
    res = (mkState m' (tr ++ inner), inr tt) /\
    Forall is_tuple_update inner /\ tids_wf m' /\
    (forall k, k <> o -> m' !! k = m !! k) /\
    (forall k, is_Some (m' !! k) <-> is_Some (m !! k)).

Definition lookup_failed (o : Oid) : err :=
  Elog "cache lookup failed for operator %u" o.

(** The value of a computation, run from the empty catalog. *)
Definition run {A} (m : M A) : err + A := (m empty_state).2.

(** [m] leaves the rows alone, only appends to the trace, and computes a
    value that does not depend on the state. *)
Definition trace_only {A} (m : M A) : Prop :=
  forall s, exists evs,
    m s = (mkState (pg_operator s) (trace s ++ evs), run m).

Definition binary_form (f : FormData_pg_operator) : bool :=
  OidIsValid (oprleft f) && OidIsValid (oprright f).

(** The value the loop takes for an option: NIL for NONE, else the name. *)
Definition param_of (env : Env) (d : DefElem) : err + list string :=
  match arg d with
  | None => inr []
  | Some _ => defGetQualifiedName env d
  end.

(** The last option of the list with key [k]. *)
Fixpoint last_opt (k : string) (opts : list DefElem) : option DefElem :=
  match opts with
  | [] => None
  | d :: r =>
      match last_opt k r with
      | Some x => Some x
      | None => if String.eqb (defname d) k then Some d else None
      end
  end.

(** I4: a restriction estimator only on a boolean operator. *)
Definition I4 (f : FormData_pg_operator) : bool :=
  negb (OidIsValid (oprrest f)) || N.eqb (oprresult f) BOOLOID.

(** I5: a join estimator only on a boolean operator with a left operand. *)
Definition I5 (f : FormData_pg_operator) : bool :=
  negb (OidIsValid (oprjoin f)) ||
  (N.eqb (oprresult f) BOOLOID && OidIsValid (oprleft f)).

Definition shape_invariants (f : FormData_pg_operator) : bool := I4 f && I5 f.

(** The request names an estimator (its last option for the key carries a
    name, not NONE) that the stored shape [f] does not allow. *)
Definition forbidden_estimator (env : Env) (f : FormData_pg_operator)
    (opts : list DefElem) : Prop :=
  (binary_form f = false /\
   exists d, last_opt "join" opts = Some d /\ param_of env d <> inr []) \/
  (oprresult f <> BOOLOID /\
   exists k d, (k = "restrict" \/ k = "join") /\
     last_opt k opts = Some d /\ param_of env d <> inr []).

(** The error [e] is the one an estimator lookup raised. *)
Definition estimator_error (env : Env) (opts : list DefElem) (e : err) : Prop :=
  exists d n, param_of env d = inr n /\
    ((last_opt "restrict" opts = Some d /\
      run (ValidateRestrictionEstimator env n) = inl e) \/
     (last_opt "join" opts = Some d /\
      run (ValidateJoinEstimator env n) = inl e)).

Definition restrict_shape_error : err :=
  Ereport ERRCODE_INVALID_FUNCTION_DEFINITION
    "only boolean operators can have restriction selectivity" [] None.
Definition join_binary_error : err :=
  Ereport ERRCODE_INVALID_FUNCTION_DEFINITION
    "only binary operators can have join selectivity" [] None.
Definition join_bool_error : err :=
  Ereport ERRCODE_INVALID_FUNCTION_DEFINITION
    "only boolean operators can have join selectivity" [] None.

Definition immutable_error (k : string) : err :=
  Ereport ERRCODE_SYNTAX_ERROR "operator attribute %s cannot be changed" [k] None.
Definition unrecognized_error (k : string) : err :=
  Ereport ERRCODE_SYNTAX_ERROR "operator attribute %s not recognized" [k] None.

(** The branch of the loop of DefineOperator (lines 101-155) a key takes;
    "function" and "procedure" share a branch, as do the four obsolete
    merge options. *)
Inductive param_kind :=
| PKleftarg | PKrightarg | PKfunction | PKcommutator | PKnegator
| PKrestrict | PKjoin | PKhashes | PKmerges | PKmerge_alias | PKunknown.

Definition param_kind_eqb (a b : param_kind) : bool :=
  match a, b with
  | PKleftarg, PKleftarg
  | PKrightarg, PKrightarg
  | PKfunction, PKfunction
  | PKcommutator, PKcommutator
  | PKnegator, PKnegator
  | PKrestrict, PKrestrict
  | PKjoin, PKjoin
  | PKhashes, PKhashes
  | PKmerges, PKmerges
  | PKmerge_alias, PKmerge_alias
  | PKunknown, PKunknown => true
  | _, _ => false
  end.

Definition param_kind_of (k : string) : param_kind :=
  if String.eqb k "leftarg" then PKleftarg
  else if String.eqb k "rightarg" then PKrightarg
  else if String.eqb k "function" then PKfunction
  else if String.eqb k "procedure" then PKfunction
  else if String.eqb k "commutator" then PKcommutator
  else if String.eqb k "negator" then PKnegator
  else if String.eqb k "restrict" then PKrestrict
  else if String.eqb k "join" then PKjoin
  else if String.eqb k "hashes" then PKhashes
  else if String.eqb k "merges" then PKmerges
  else if String.eqb k "sort1" then PKmerge_alias
  else if String.eqb k "sort2" then PKmerge_alias
  else if String.eqb k "ltcmp" then PKmerge_alias
  else if String.eqb k "gtcmp" then PKmerge_alias
  else PKunknown.

Definition is_kind (x : param_kind) (k : string) : bool :=
  param_kind_eqb (param_kind_of k) x.

(** The keys that set oprcanmerge: merges and its obsolete spellings. *)
Definition merge_key (k : string) : bool :=
  is_kind PKmerges k || is_kind PKmerge_alias k.

(** The keys the loop recognises. *)
Definition define_key (k : string) : bool := negb (is_kind PKunknown k).

(** The last element of the list whose key satisfies [P]. *)
Fixpoint last_by (P : string -> bool) (ps : list DefElem) : option DefElem :=
  match ps with
  | [] => None
  | d :: r =>
      match last_by P r with
      | Some x => Some x
      | None => if P (defname d) then Some d else None
      end
  end.

Definition setof_error : err :=
  Ereport ERRCODE_INVALID_FUNCTION_DEFINITION
    "SETOF type not allowed for operator argument" [] None.

Definition types_error : err :=
  Ereport ERRCODE_INVALID_FUNCTION_DEFINITION
    "operator argument types must be specified" [] None.
Definition postfix_error : err :=
  Ereport ERRCODE_INVALID_FUNCTION_DEFINITION
    "operator right argument type must be specified" []
    (Some "Postfix operators are not supported.").

Definition no_lookup (ev : event) : Prop :=
  match ev with EvLookupFuncName _ _ _ _ => False | _ => True end.

(** The first call of LookupFuncName recorded in a list of events. *)
Fixpoint first_lookup (evs : list event) : option event :=
  match evs with
  | [] => None
  | EvLookupFuncName fn n tys mo :: _ => Some (EvLookupFuncName fn n tys mo)
  | _ :: r => first_lookup r
  end.

(** Computations that leave the rows alone and call no LookupFuncName. *)
Definition quiet {A} (m : M A) : Prop :=
  forall s, exists evs, Forall no_lookup evs /\
    m s = (mkState (pg_operator s) (trace s ++ evs), run m).

(** Computations that only append to the trace. *)
Definition extends_trace {A} (m : M A) : Prop :=
  forall s, exists evs, trace (m s).1 = trace s ++ evs.

Definition first_lookup_spec {B} (P : event -> Prop) (s : State)
    (res : State * (err + B)) : Prop :=
  exists evs, trace res.1 = trace s ++ evs /\
  match first_lookup evs with
  | None => exists e, res.2 = inl e
  | Some ev => P ev
  end.

(** Two computations that, from states with the same rows, end with the
    same rows and the same result (their traces may differ). *)
Definition equiv {A} (m1 m2 : M A) : Prop :=
  forall s1 s2, pg_operator s1 = pg_operator s2 ->
    pg_operator (m1 s1).1 = pg_operator (m2 s2).1 /\ (m1 s1).2 = (m2 s2).2.

Definition known_params (ps : list DefElem) : list DefElem :=
  List.filter (fun d => define_key (defname d)) ps.

(** The float8 and EXECUTE checks an estimator validator makes on the
    function [f] it found, with the validator's own message. *)
Definition estimator_checks (env : Env) (msg : string) (n : list string)
    (f : positive) : err + Oid :=
  if negb (N.eqb (get_func_rettype env (Npos f)) FLOAT8OID)
  then inl (Ereport ERRCODE_INVALID_OBJECT_DEFINITION msg
              [NameListToString n; "float8"] None)
  else if negb (acl_ok (pg_proc_aclcheck_execute env (Npos f)))
  then inl (AclError (pg_proc_aclcheck_execute env (Npos f)) OBJECT_FUNCTION
              (NameListToString n))
  else inr (Npos f).

(** The calls by which a computation only reads the catalog. *)
Definition is_lookup (ev : event) : Prop :=
  match ev with EvLookupFuncName _ _ _ _ => True | _ => False end.
Definition catalog_read (ev : event) : Prop :=
  match ev with
  | EvLookupFuncName _ _ _ _ | EvSearchSysCache _ => True
  | _ => False
  end.

(** Computations that leave the rows alone and only call LookupFuncName. *)
Definition lookups_only {A} (m : M A) : Prop :=
  forall s, exists evs, Forall is_lookup evs /\
    m s = (mkState (pg_operator s) (trace s ++ evs), run m).

(** An estimator column after ALTER OPERATOR: unchanged, cleared, or a
    function returning float8 that the user may execute. *)
Definition valid_estimator (env : Env) (old new : Oid) : Prop :=
  new = old \/ new = InvalidOid \/
  (get_func_rettype env new = FLOAT8OID /\
   acl_ok (pg_proc_aclcheck_execute env new) = true).

Example join_old_ok :
  (ValidateJoinEstimator env0 ["oldjoinsel"] empty_state).2 = inr 106.
Proof. vm_compute. reflexivity. Qed.
Example join_both_ambiguous :
  (ValidateJoinEstimator env0 ["bothjoinsel"] empty_state).2
  = inl (Ereport ERRCODE_AMBIGUOUS_FUNCTION
           "join estimator function %s has multiple matches" ["bothjoinsel"] None).
Proof. vm_compute. reflexivity. Qed.

(** ** ValidateJoinEstimator *)

Ltac run_m :=
  unfold bind, emit, ret, raise, ereport, lift, get_state, put_pg_operator in *;
  simpl in *.

(** Claim C1 (as stated): a name matching only the legacy 4-argument
    signature makes ValidateJoinEstimator succeed with that function.  It
    fails on the sample catalog: badjoinsel(internal, oid, internal, int2)
    returns int4, and the float8 check that follows the lookup rejects it. *)
Lemma C1_legacy_only_can_fail :
  func_lookup env0 ["badjoinsel"] JOINSEL_ARGS = None /\
  func_lookup env0 ["badjoinsel"] (firstn 4 JOINSEL_ARGS) = Some 109%positive /\
  (ValidateJoinEstimator env0 ["badjoinsel"] empty_state).2
    = inl (join_not_float8 ["badjoinsel"]) /\
  (ValidateJoinEstimator env0 ["badjoinsel"] empty_state).2 <> inr 109.
Proof. vm_compute. repeat split; discriminate. Qed.

(** Claim C1 (amended): ValidateJoinEstimator looks the name up with the
    5-argument and the legacy 4-argument signature.  A name matching both
    fails AmbiguousFunction; a name matching neither fails
    UndefinedFunction on the 5-argument signature; a name matching only the
    4-argument signature yields that function when it returns float8 and
    the caller may execute it, and otherwise fails the float8 check or the
    privilege check. *)
Theorem ValidateJoinEstimator_signatures (env : Env) (joinName : list string)
    (s : State) :
  (forall f5 f4,
     func_lookup env joinName JOINSEL_ARGS = Some f5 ->
     func_lookup env joinName (firstn 4 JOINSEL_ARGS) = Some f4 ->
     (ValidateJoinEstimator env joinName s).2 = inl (join_ambiguous joinName)) /\
  (func_lookup env joinName JOINSEL_ARGS = None ->
   func_lookup env joinName (firstn 4 JOINSEL_ARGS) = None ->
   (ValidateJoinEstimator env joinName s).2
     = inl (FuncNotFound joinName JOINSEL_ARGS)) /\
  (forall f4,
     func_lookup env joinName JOINSEL_ARGS = None ->
     func_lookup env joinName (firstn 4 JOINSEL_ARGS) = Some f4 ->
     (ValidateJoinEstimator env joinName s).2 =
       if negb (N.eqb (get_func_rettype env (Npos f4)) FLOAT8OID)
       then inl (join_not_float8 joinName)
       else if negb (acl_ok (pg_proc_aclcheck_execute env (Npos f4)))
       then inl (AclError (pg_proc_aclcheck_execute env (Npos f4))
                   OBJECT_FUNCTION (NameListToString joinName))
       else inr (Npos f4)).
Proof.
  unfold JOINSEL_ARGS, join_ambiguous, join_not_float8.
  unfold ValidateJoinEstimator, LookupFuncName.
  split; [|split].
  - intros f5 f4 H5 H4. run_m. rewrite H5, H4. reflexivity.
  - intros H5 H4. run_m. rewrite H5, H4. reflexivity.
  - intros f4 H5 H4. run_m. rewrite H5, H4. simpl.
    destruct (get_func_rettype env (N.pos f4) =? FLOAT8OID); simpl;
      [destruct (pg_proc_aclcheck_execute env (N.pos f4))|]; reflexivity.
Qed.

(** Instance of C1 on the sample catalog: oldjoinsel has only the legacy
    signature and is accepted. *)
Lemma ValidateJoinEstimator_signatures_witness :
  (ValidateJoinEstimator env0 ["oldjoinsel"] empty_state).2 = inr 106.
Proof.
  pose proof (proj2 (proj2 (ValidateJoinEstimator_signatures env0
                               ["oldjoinsel"] empty_state)) 106%positive) as H.
  rewrite H; reflexivity.
Defined.

(** ** RemoveOperatorById *)

Lemma bind_ok {A B} (m : M A) (k : A -> M B) s s1 a :
  m s = (s1, inr a) -> bind m k s = k a s1.
Proof. unfold bind; intros ->; reflexivity. Qed.

Lemma bind_err {A B} (m : M A) (k : A -> M B) s s1 e :
  m s = (s1, inl e) -> bind m k s = (s1, inl e).
Proof. unfold bind; intros ->; reflexivity. Qed.

Lemma CatalogTupleUpdate_current m tr k t tup :
  tids_wf m -> m !! k = Some t ->
  CatalogTupleUpdate (t_self t) tup (mkState m tr) =
    (mkState (<[k := mkHeapTuple (k, N.succ (t_self t).2) (t_data tup)]> m)
             (tr ++ [EvTupleUpdate (t_self t)]),
     inr (mkHeapTuple (k, N.succ (t_self t).2) (t_data tup))).
Proof.
  intros Hwf Hk.
  pose proof (map_Forall_lookup_1 _ _ _ _ Hwf Hk) as Hself; simpl in Hself.
  unfold CatalogTupleUpdate, bind, emit, get_state, put_pg_operator, ret.
  cbn [pg_operator trace]. rewrite Hself, Hk.
  rewrite bool_decide_eq_true_2 by (destruct (t_self t); simpl in *; subst; reflexivity).
  reflexivity.
Qed.

Lemma link_effect_nop o m tr : tids_wf m -> link_effect o m tr (mkState m tr, inr tt).
Proof.
  intros Hwf. exists m, []. rewrite app_nil_r. repeat split; auto.
Qed.

Lemma link_effect_update o m tr t tup :
  tids_wf m -> m !! o = Some t ->
  link_effect o m tr
    ((CatalogTupleUpdate (t_self t) tup ;;; ret tt) (mkState m tr)).
Proof.
  intros Hwf Ho.
  rewrite (bind_ok _ _ _ _ _ (CatalogTupleUpdate_current m tr o t tup Hwf Ho)).
  unfold ret, link_effect.
  eexists _, [EvTupleUpdate (t_self t)]. split; [reflexivity|].
  split; [apply List.Forall_cons; [eexists; reflexivity | apply List.Forall_nil]|].
  split; [apply map_Forall_insert_2; [reflexivity | exact Hwf]|].
  split.
  - intros k Hk. rewrite lookup_insert_ne; auto.
  - intros k. destruct (decide (k = o)) as [->|Hne].
    + rewrite lookup_insert_eq, Ho. split; intros _; eexists; reflexivity.
    + rewrite lookup_insert_ne; auto.
Qed.

Lemma OperatorUpd_link_spec link set_link b o d m tr :
  tids_wf m ->
  link_effect o m tr (OperatorUpd_link link set_link b o d (mkState m tr)).
Proof.
  intros Hwf. unfold OperatorUpd_link.
  rewrite (bind_ok _ _ (mkState m tr) (mkState m tr) (mkState m tr)) by reflexivity.
  cbn [pg_operator].
  destruct (OidIsValid o); [|apply link_effect_nop; exact Hwf].
  destruct (m !! o) as [t|] eqn:Ho; [|apply link_effect_nop; exact Hwf].
  destruct d.
  - destruct (N.eqb (link (t_data t)) b);
      [apply link_effect_update; assumption | apply link_effect_nop; exact Hwf].
  - destruct (negb (OidIsValid (link (t_data t))));
      [apply link_effect_update; assumption | apply link_effect_nop; exact Hwf].
Qed.

Lemma CatalogTupleDelete_current m tr k t :
  tids_wf m -> m !! k = Some t ->
  CatalogTupleDelete (t_self t) (mkState m tr) =
    (mkState (delete k m) (tr ++ [EvTupleDelete (t_self t)]), inr tt).
Proof.
  intros Hwf Hk.
  pose proof (map_Forall_lookup_1 _ _ _ _ Hwf Hk) as Hself; simpl in Hself.
  unfold CatalogTupleDelete, bind, emit, get_state, put_pg_operator, ret.
  cbn [pg_operator trace]. rewrite Hself, Hk.
  rewrite bool_decide_eq_true_2 by reflexivity.
  reflexivity.
Qed.

Lemma SearchSysCache1_run m tr k :
  SearchSysCache1 k (mkState m tr) =
    (mkState m (tr ++ [EvSearchSysCache k]), inr (m !! k)).
Proof. reflexivity. Qed.

Lemma OperatorUpd_model_spec b c n d m tr :
  tids_wf m ->
  exists m' inner,
    OperatorUpd_model b c n d (mkState m tr) =
      (mkState m' (tr ++ EvOperatorUpd b c n d :: inner), inr tt) /\
    Forall is_tuple_update inner /\ tids_wf m' /\
    (forall k, k <> c -> k <> n -> m' !! k = m !! k) /\
    (forall k, is_Some (m' !! k) <-> is_Some (m !! k)).
Proof.
  intros Hwf. unfold OperatorUpd_model.
  rewrite (bind_ok _ _ _ (mkState m (tr ++ [EvOperatorUpd b c n d])) tt)
    by reflexivity.
  destruct (OperatorUpd_link_spec oprcom set_oprcom b c d m
              (tr ++ [EvOperatorUpd b c n d]) Hwf)
    as (m1 & i1 & E1 & F1 & W1 & Fr1 & D1).
  rewrite (bind_ok _ _ _ _ _ E1).
  destruct (OperatorUpd_link_spec oprnegate set_oprnegate b n d m1
              ((tr ++ [EvOperatorUpd b c n d]) ++ i1) W1)
    as (m2 & i2 & E2 & F2 & W2 & Fr2 & D2).
  rewrite E2. exists m2, (i1 ++ i2). split.
  - rewrite <- !app_assoc. reflexivity.
  - split; [apply Forall_app; split; assumption|].
    split; [assumption|]. split.
    + intros k Hc Hn. rewrite Fr2 by assumption. apply Fr1; assumption.
    + intros k. rewrite D2. apply D1.
Qed.

(** Claim C2: for an operator with a commutator or negator,
    RemoveOperatorById first asks OperatorUpd to clear the reciprocal links,
    then deletes the row.  When the operator is its own commutator or
    negator it fetches the row again between the two, so the delete names
    the current row version and succeeds (CatalogTupleDelete raises on an
    outdated version).  A failed fetch, the first one or the re-fetch, ends
    in the internal "cache lookup failed" error; these two failure clauses
    hold for any implementation [upd] of OperatorUpd, the rest for the
    spec's model of it. *)
Theorem RemoveOperatorById_unlinks_then_deletes (operOid : Oid) (s : State) :
  (forall upd,
     pg_operator s !! operOid = None ->
     (RemoveOperatorById upd operOid s).2 = inl (lookup_failed operOid)) /\
  (forall upd tup s1,
     pg_operator s !! operOid = Some tup ->
     (OidIsValid (oprcom (t_data tup)) || OidIsValid (oprnegate (t_data tup)))
       = true ->
     (N.eqb operOid (oprcom (t_data tup)) || N.eqb operOid (oprnegate (t_data tup)))
       = true ->
     upd operOid (oprcom (t_data tup)) (oprnegate (t_data tup)) true
       (mkState (pg_operator s) (trace s ++ [EvSearchSysCache operOid]))
       = (s1, inr tt) ->
     pg_operator s1 !! operOid = None ->
     (RemoveOperatorById upd operOid s).2 = inl (lookup_failed operOid)) /\
  (forall tup,
     tids_wf (pg_operator s) ->
     pg_operator s !! operOid = Some tup ->
     (OidIsValid (oprcom (t_data tup)) || OidIsValid (oprnegate (t_data tup)))
       = true ->
     let c := oprcom (t_data tup) in
     let n := oprnegate (t_data tup) in
     exists s' inner tid,
       RemoveOperatorById OperatorUpd_model operOid s = (s', inr tt) /\
       pg_operator s' !! operOid = None /\
       (forall k, k <> operOid -> k <> c -> k <> n ->
          pg_operator s' !! k = pg_operator s !! k) /\
       Forall is_tuple_update inner /\
       trace s' = trace s ++ [EvSearchSysCache operOid;
                              EvOperatorUpd operOid c n true] ++ inner ++
                  (if N.eqb operOid c || N.eqb operOid n
                   then [EvSearchSysCache operOid] else []) ++
                  [EvTupleDelete tid]).
Proof.
  destruct s as [m tr]; cbn [pg_operator trace].
  unfold RemoveOperatorById.
  split; [|split].
  - intros upd Hnone.
    rewrite (bind_ok _ _ _ _ _ (SearchSysCache1_run m tr operOid)). rewrite Hnone. reflexivity.
  - intros upd tup s1 Htup Hlinks Hself Hupd Hgone.
    rewrite (bind_ok _ _ _ _ _ (SearchSysCache1_run m tr operOid)). rewrite Htup. cbv beta iota zeta. rewrite Hlinks, Hself.
    unfold bind; cbv beta. rewrite Hupd. destruct s1 as [m1 tr1].
    rewrite SearchSysCache1_run. cbn [pg_operator] in Hgone. rewrite Hgone.
    reflexivity.
  - intros tup Hwf Htup Hlinks.
    rewrite (bind_ok _ _ _ _ _ (SearchSysCache1_run m tr operOid)). rewrite Htup. cbv beta iota zeta. rewrite Hlinks.
    destruct (OperatorUpd_model_spec operOid (oprcom (t_data tup))
                (oprnegate (t_data tup)) true m (tr ++ [EvSearchSysCache operOid]) Hwf)
      as (m' & inner & E & F & W & Fr & D).
    unfold bind; cbv beta. rewrite E.
    destruct (N.eqb operOid (oprcom (t_data tup)) || N.eqb operOid (oprnegate (t_data tup)))
      eqn:Hself.
    + rewrite SearchSysCache1_run.
      destruct (m' !! operOid) as [t'|] eqn:Ht'.
      2:{ exfalso. destruct (proj2 (D operOid)) as [x Hx]; [eexists; exact Htup|].
          congruence. }
      unfold ret. rewrite (CatalogTupleDelete_current _ _ _ _ W Ht').
      eexists _, inner, (t_self t'). split; [reflexivity|].
      cbn [pg_operator trace]. split; [apply lookup_delete_eq|].
      split; [|split; [assumption|]].
      * intros k Hk Hc Hn. rewrite lookup_delete_ne by congruence. apply Fr; assumption.
      * rewrite <- !app_assoc. reflexivity.
    + apply orb_false_iff in Hself as [Hc Hn].
      apply N.eqb_neq in Hc, Hn.
      assert (Hm' : m' !! operOid = Some tup) by (rewrite Fr; auto).
      unfold ret. rewrite (CatalogTupleDelete_current _ _ _ _ W Hm').
      eexists _, inner, (t_self tup). split; [reflexivity|].
      cbn [pg_operator trace]. split; [apply lookup_delete_eq|].
      split; [|split; [assumption|]].
      * intros k Hk Hc' Hn'. rewrite lookup_delete_ne by congruence. apply Fr; assumption.
      * rewrite <- !app_assoc. reflexivity.
Qed.

(** ** Computations that only append to the trace *)

Lemma trace_only_ret {A} (a : A) : trace_only (ret a).
Proof. intros s. exists []. rewrite app_nil_r. destruct s; reflexivity. Qed.

Lemma trace_only_raise {A} (e : err) : trace_only (A:=A) (raise e).
Proof. intros s. exists []. rewrite app_nil_r. destruct s; reflexivity. Qed.

Lemma trace_only_lift {A} (r : err + A) : trace_only (lift r).
Proof. intros s. exists []. rewrite app_nil_r. destruct s; reflexivity. Qed.

Lemma trace_only_ereport {A} c f a : trace_only (A:=A) (ereport c f a).
Proof. apply trace_only_raise. Qed.

Lemma trace_only_emit ev : trace_only (emit ev).
Proof. intros s. exists [ev]. reflexivity. Qed.

Lemma run_bind {A B} (m : M A) (k : A -> M B) :
  trace_only m -> (forall a, trace_only (k a)) ->
  run (bind m k) = match run m with inl e => inl e | inr a => run (k a) end.
Proof.
  intros Hm Hk. unfold run at 1. unfold bind.
  destruct (Hm empty_state) as [e1 ->].
  destruct (run m) as [e|a]; [reflexivity|].
  destruct (Hk a (mkState (pg_operator empty_state) (trace empty_state ++ e1)))
    as [e2 ->].
  reflexivity.
Qed.

Lemma trace_only_bind {A B} (m : M A) (k : A -> M B) :
  trace_only m -> (forall a, trace_only (k a)) -> trace_only (bind m k).
Proof.
  intros Hm Hk s. rewrite (run_bind m k Hm Hk). unfold bind.
  destruct (Hm s) as [e1 ->].
  destruct (run m) as [e|a]; [exists e1; reflexivity|].
  destruct (Hk a (mkState (pg_operator s) (trace s ++ e1))) as [e2 ->].
  exists (e1 ++ e2). cbn [pg_operator trace]. rewrite app_assoc. reflexivity.
Qed.

Lemma run_ret {A} (a : A) : run (ret a) = inr a.
Proof. reflexivity. Qed.
Lemma run_raise {A} (e : err) : run (A:=A) (raise e) = inl e.
Proof. reflexivity. Qed.
Lemma run_lift {A} (r : err + A) : run (lift r) = r.
Proof. reflexivity. Qed.

Ltac trace_only_step :=
  match goal with
  | |- trace_only (bind _ _) => apply trace_only_bind; [|intros ?]
  | |- trace_only (ret _) => apply trace_only_ret
  | |- trace_only (raise _) => apply trace_only_raise
  | |- trace_only (lift _) => apply trace_only_lift
  | |- trace_only (ereport _ _ _) => apply trace_only_ereport
  | |- trace_only (emit _) => apply trace_only_emit
  | |- trace_only (if ?b then _ else _) => destruct b
  | |- trace_only (match ?x with _ => _ end) => destruct x
  end.

Create HintDb trace_only_db.
Ltac solve_trace_only :=
  repeat (trace_only_step || (progress auto with trace_only_db)).

Lemma trace_only_LookupFuncName env n k tys mo :
  trace_only (LookupFuncName env n k tys mo).
Proof. unfold LookupFuncName. solve_trace_only. Qed.
Global Hint Resolve trace_only_LookupFuncName : trace_only_db.

Lemma trace_only_ValidateRestrictionEstimator env n :
  trace_only (ValidateRestrictionEstimator env n).
Proof. unfold ValidateRestrictionEstimator. solve_trace_only. Qed.
Global Hint Resolve trace_only_ValidateRestrictionEstimator : trace_only_db.

Lemma trace_only_ValidateJoinEstimator env n :
  trace_only (ValidateJoinEstimator env n).
Proof. unfold ValidateJoinEstimator. solve_trace_only. Qed.
Global Hint Resolve trace_only_ValidateJoinEstimator : trace_only_db.

Lemma trace_only_AlterOperator_option env a d :
  trace_only (AlterOperator_option env a d).
Proof. unfold AlterOperator_option. solve_trace_only. Qed.
Global Hint Resolve trace_only_AlterOperator_option : trace_only_db.

Lemma trace_only_AlterOperator_options env opts :
  forall a, trace_only (AlterOperator_options env a opts).
Proof. induction opts as [|d opts IH]; intros a; simpl; solve_trace_only. Qed.
Global Hint Resolve trace_only_AlterOperator_options : trace_only_db.

Lemma trace_only_AlterOperator_modify env oprId f opts :
  trace_only (AlterOperator_modify env oprId f opts).
Proof. unfold AlterOperator_modify. solve_trace_only. Qed.
Global Hint Resolve trace_only_AlterOperator_modify : trace_only_db.

Lemma trace_only_DefineOperator_param env p d :
  trace_only (DefineOperator_param env p d).
Proof. unfold DefineOperator_param. solve_trace_only. Qed.
Global Hint Resolve trace_only_DefineOperator_param : trace_only_db.

Lemma trace_only_DefineOperator_params env ps :
  forall p, trace_only (DefineOperator_params env p ps).
Proof. induction ps as [|d ps IH]; intros p; simpl; solve_trace_only. Qed.
Global Hint Resolve trace_only_DefineOperator_params : trace_only_db.

(** ** AlterOperator as a whole *)

Lemma AlterOperator_run env stmt m tr oprId tup :
  tids_wf m ->
  LookupOperWithArgs env (opername stmt) = inr oprId ->
  m !! oprId = Some tup ->
  exists tr',
    AlterOperator env stmt (mkState m tr) =
    match run (AlterOperator_modify env oprId (t_data tup) (options stmt)) with
    | inl e => (mkState m tr', inl e)
    | inr f =>
        (mkState (<[oprId := mkHeapTuple (oprId, N.succ (t_self tup).2) f]> m) tr',
         inr (oid f))
    end.
Proof.
  intros Hwf HL Ht. unfold AlterOperator.
  rewrite (bind_ok _ _ _ (mkState m tr) oprId) by (unfold lift; rewrite HL; reflexivity).
  rewrite (bind_ok _ _ _ _ _ (SearchSysCache1_run m tr oprId)). rewrite Ht.
  destruct (trace_only_AlterOperator_modify env oprId (t_data tup) (options stmt)
              (mkState m (tr ++ [EvSearchSysCache oprId]))) as [evs E].
  cbn [pg_operator trace] in E.
  destruct (run (AlterOperator_modify env oprId (t_data tup) (options stmt)))
    as [e|f] eqn:Hr.
  - rewrite (bind_err _ _ _ _ _ E). eexists; reflexivity.
  - rewrite (bind_ok _ _ _ _ _ E).
    rewrite (bind_ok _ _ _ _ _ (CatalogTupleUpdate_current _ _ _ _ _ Hwf Ht)).
    eexists; reflexivity.
Qed.

Lemma AlterOperator_lookup_error env stmt s e :
  LookupOperWithArgs env (opername stmt) = inl e ->
  (AlterOperator env stmt s).2 = inl e.
Proof. intros HL. unfold AlterOperator, bind, lift. rewrite HL. reflexivity. Qed.

Lemma AlterOperator_missing_row env stmt m tr oprId :
  LookupOperWithArgs env (opername stmt) = inr oprId ->
  m !! oprId = None ->
  (AlterOperator env stmt (mkState m tr)).2 = inl (lookup_failed oprId).
Proof.
  intros HL Ht. unfold AlterOperator.
  rewrite (bind_ok _ _ _ (mkState m tr) oprId) by (unfold lift; rewrite HL; reflexivity).
  rewrite (bind_ok _ _ _ _ _ (SearchSysCache1_run m tr oprId)). rewrite Ht.
  reflexivity.
Qed.

Ltac run_split :=
  repeat (first
    [ rewrite run_bind by (intros; solve_trace_only)
    | rewrite run_ret | rewrite run_raise | rewrite run_lift
    | progress cbn [negb andb orb]
    | match goal with
      | |- context [if negb ?b then _ else _] =>
          let H := fresh "Hb" in destruct b eqn:H
      | |- context [if ?b && _ then _ else _] =>
          let H := fresh "Hb" in destruct b eqn:H
      | |- context [if ?b then _ else _] =>
          let H := fresh "Hb" in destruct b eqn:H
      end
    | match goal with
      | |- context [match run ?m with inl _ => _ | inr _ => _ end] =>
          let H := fresh "Hrun" in destruct (run m) eqn:H
      end ]); try reflexivity.

Lemma run_AlterOperator_modify env oprId f opts :
  run (AlterOperator_modify env oprId f opts) =
  match run (AlterOperator_options env AlterOptions_init opts) with
  | inl e => inl e
  | inr a =>
    if negb (pg_oper_ownercheck env oprId)
    then inl (AclError ACLCHECK_NOT_OWNER OBJECT_OPERATOR (oprname f))
    else
    match (if nonnil (alter_restrictionName a)
           then run (ValidateRestrictionEstimator env (alter_restrictionName a))
           else inr InvalidOid) with
    | inl e => inl e
    | inr r =>
      match (if nonnil (alter_joinName a)
             then run (ValidateJoinEstimator env (alter_joinName a))
             else inr InvalidOid) with
      | inl e => inl e
      | inr j =>
        if negb (binary_form f) && OidIsValid j
        then inl (Ereport ERRCODE_INVALID_FUNCTION_DEFINITION
                    "only binary operators can have join selectivity" [] None)
        else if negb (N.eqb (oprresult f) BOOLOID) && OidIsValid r
        then inl (Ereport ERRCODE_INVALID_FUNCTION_DEFINITION
                    "only boolean operators can have restriction selectivity" [] None)
        else if negb (N.eqb (oprresult f) BOOLOID) && OidIsValid j
        then inl (Ereport ERRCODE_INVALID_FUNCTION_DEFINITION
                    "only boolean operators can have join selectivity" [] None)
        else
          let f1 := if updateRestriction a then set_oprrest f r else f in
          inr (if updateJoin a then set_oprjoin f1 j else f1)
      end
    end
  end.
Proof.
  unfold AlterOperator_modify, binary_form, ereport.
  run_split.
  all: simpl in *; congruence.
Qed.

(** ** The option loop of AlterOperator *)

Lemma run_AlterOperator_option env a d :
  run (AlterOperator_option env a d) =
  match param_of env d with
  | inl e => inl e
  | inr param =>
      if String.eqb (defname d) "restrict" then
        inr (mkAlterOptions param true (alter_joinName a) (updateJoin a))
      else if String.eqb (defname d) "join" then
        inr (mkAlterOptions (alter_restrictionName a) (updateRestriction a)
               param true)
      else if immutable_key (defname d) then
        inl (Ereport ERRCODE_SYNTAX_ERROR
               "operator attribute %s cannot be changed" [defname d] None)
      else
        inl (Ereport ERRCODE_SYNTAX_ERROR
               "operator attribute %s not recognized" [defname d] None)
  end.
Proof.
  unfold AlterOperator_option, param_of, ereport.
  destruct (arg d); run_split.
Qed.

Lemma run_AlterOperator_options_cons env a d r :
  run (AlterOperator_options env a (d :: r)) =
  match run (AlterOperator_option env a d) with
  | inl e => inl e
  | inr a' => run (AlterOperator_options env a' r)
  end.
Proof. simpl. apply run_bind; intros; solve_trace_only. Qed.

Lemma AlterOperator_option_ok env a d a1 :
  run (AlterOperator_option env a d) = inr a1 ->
  (defname d = "restrict" /\
   param_of env d = inr (alter_restrictionName a1) /\
   a1 = mkAlterOptions (alter_restrictionName a1) true
          (alter_joinName a) (updateJoin a)) \/
  (defname d = "join" /\
   param_of env d = inr (alter_joinName a1) /\
   a1 = mkAlterOptions (alter_restrictionName a) (updateRestriction a)
          (alter_joinName a1) true).
Proof.
  rewrite run_AlterOperator_option.
  destruct (param_of env d) as [e|param]; [discriminate|].
  destruct (String.eqb_spec (defname d) "restrict") as [Hr|Hr].
  - intros H; injection H as <-. left. auto.
  - destruct (String.eqb_spec (defname d) "join") as [Hj|Hj].
    + intros H; injection H as <-. right. auto.
    + destruct (immutable_key (defname d)); discriminate.
Qed.

Lemma AlterOperator_options_last env opts :
  forall a a', run (AlterOperator_options env a opts) = inr a' ->
  (match last_opt "restrict" opts with
   | None => alter_restrictionName a' = alter_restrictionName a /\
             updateRestriction a' = updateRestriction a
   | Some d => updateRestriction a' = true /\
               param_of env d = inr (alter_restrictionName a')
   end) /\
  (match last_opt "join" opts with
   | None => alter_joinName a' = alter_joinName a /\
             updateJoin a' = updateJoin a
   | Some d => updateJoin a' = true /\
               param_of env d = inr (alter_joinName a')
   end).
Proof.
  induction opts as [|d r IH]; intros a a' H.
  - simpl in H. rewrite run_ret in H. injection H as <-.
    simpl. split; split; reflexivity.
  - rewrite run_AlterOperator_options_cons in H.
    destruct (run (AlterOperator_option env a d)) as [e|a1] eqn:H1;
      [discriminate|].
    specialize (IH a1 a' H) as [IHr IHj].
    apply AlterOperator_option_ok in H1.
    simpl last_opt.
    split.
    + destruct (last_opt "restrict" r) as [x|]; [exact IHr|].
      destruct IHr as [E1 E2]. rewrite E1, E2.
      destruct H1 as [(Hd & Hp & Ha1) | (Hd & Hp & Ha1)]; rewrite Hd.
      * simpl. rewrite Ha1. simpl. split; [reflexivity|exact Hp].
      * simpl. rewrite Ha1. simpl. split; reflexivity.
    + destruct (last_opt "join" r) as [x|]; [exact IHj|].
      destruct IHj as [E1 E2]. rewrite E1, E2.
      destruct H1 as [(Hd & Hp & Ha1) | (Hd & Hp & Ha1)]; rewrite Hd.
      * simpl. rewrite Ha1. simpl. split; reflexivity.
      * simpl. rewrite Ha1. simpl. split; [reflexivity|exact Hp].
Qed.

Lemma AlterOperator_options_keys env opts :
  forall a a', run (AlterOperator_options env a opts) = inr a' ->
  Forall (fun d => defname d = "restrict" \/ defname d = "join") opts.
Proof.
  induction opts as [|d r IH]; intros a a' H; [constructor|].
  rewrite run_AlterOperator_options_cons in H.
  destruct (run (AlterOperator_option env a d)) as [e|a1] eqn:H1;
    [discriminate|].
  apply List.Forall_cons.
  - apply AlterOperator_option_ok in H1.
    destruct H1 as [(Hd & _) | (Hd & _)]; auto.
  - eapply IH; exact H.
Qed.

(** ** Estimators resolve to valid functions *)

Lemma run_emit ev : run (emit ev) = inr tt.
Proof. reflexivity. Qed.

Lemma run_LookupFuncName env n k tys mok :
  run (LookupFuncName env n k tys mok) =
  match func_lookup env n (firstn k tys) with
  | Some f => inr (Npos f)
  | None => if mok then inr InvalidOid else inl (FuncNotFound n (firstn k tys))
  end.
Proof.
  unfold LookupFuncName.
  rewrite run_bind by (intros; solve_trace_only). rewrite run_emit.
  destruct (func_lookup env n (firstn k tys)); [reflexivity|].
  destruct mok; reflexivity.
Qed.

Lemma LookupFuncName_strict_valid env n k tys o :
  run (LookupFuncName env n k tys false) = inr o -> OidIsValid o = true.
Proof.
  rewrite run_LookupFuncName.
  destruct (func_lookup env n (firstn k tys)); [|discriminate].
  intros H; injection H as <-. reflexivity.
Qed.

Lemma ValidateRestrictionEstimator_valid env n r :
  run (ValidateRestrictionEstimator env n) = inr r -> OidIsValid r = true.
Proof.
  unfold ValidateRestrictionEstimator, ereport.
  cbv zeta. rewrite run_bind by (intros; solve_trace_only).
  match goal with
  | |- context [run (LookupFuncName ?e ?n ?k ?t ?b)] =>
      destruct (run (LookupFuncName e n k t b)) as [e'|o] eqn:H; [discriminate|]
  end.
  apply LookupFuncName_strict_valid in H.
  run_split; try discriminate.
  intros E; injection E as <-; exact H.
Qed.

Lemma ValidateJoinEstimator_valid env n j :
  run (ValidateJoinEstimator env n) = inr j -> OidIsValid j = true.
Proof.
  unfold ValidateJoinEstimator, ereport.
  cbv zeta. rewrite run_bind by (intros; solve_trace_only).
  match goal with
  | |- context [run (LookupFuncName ?e ?n 5 ?t ?b)] =>
      destruct (run (LookupFuncName e n 5 t b)) as [e'|o1]; [discriminate|]
  end.
  rewrite run_bind by (intros; solve_trace_only).
  match goal with
  | |- context [run (LookupFuncName ?e ?n 4 ?t ?b)] =>
      destruct (run (LookupFuncName e n 4 t b)) as [e'|o2]; [discriminate|]
  end.
  rewrite run_bind by (intros; solve_trace_only).
  assert (Hsel : forall o,
    run (if OidIsValid o1
         then (if OidIsValid o2
               then raise (Ereport ERRCODE_AMBIGUOUS_FUNCTION
                      "join estimator function %s has multiple matches"
                      [NameListToString n] None)
               else ret tt) ;;; ret o1
         else if negb (OidIsValid o2)
              then LookupFuncName env n 5
                     [INTERNALOID; OIDOID; INTERNALOID; INT2OID; INTERNALOID] false
              else ret o2) = inr o -> OidIsValid o = true).
  { intros o. destruct (OidIsValid o1) eqn:E1.
    - rewrite run_bind by (intros; solve_trace_only).
      destruct (OidIsValid o2); [discriminate|].
      intros H; injection H as <-; exact E1.
    - destruct (OidIsValid o2) eqn:E2; simpl.
      + intros H; injection H as <-; exact E2.
      + apply LookupFuncName_strict_valid. }
  destruct (run (if OidIsValid o1 then _ else _)) as [e|o] eqn:Hr; [discriminate|].
  specialize (Hsel o eq_refl).
  run_split; try discriminate.
  intros E; injection E as <-; exact Hsel.
Qed.

(** ** The stored shape of an operator *)

Lemma nonnil_false {A} (l : list A) : nonnil l = false -> l = [].
Proof. destruct l; simpl; congruence. Qed.

Ltac bool_cases :=
  repeat match goal with
  | |- context [OidIsValid ?x] => destruct (OidIsValid x)
  | H : context [OidIsValid ?x] |- _ => destruct (OidIsValid x)
  | |- context [N.eqb ?x ?y] => destruct (N.eqb x y)
  | H : context [N.eqb ?x ?y] |- _ => destruct (N.eqb x y)
  end; simpl in *; try congruence.

Lemma shape_checks_fail {F} (b rb rv jv : bool) (X : err + F) :
  (negb b && jv) || (negb rb && (rv || jv)) = true ->
  exists e,
    (if negb b && jv
     then inl (Ereport ERRCODE_INVALID_FUNCTION_DEFINITION
                 "only binary operators can have join selectivity" [] None)
     else if negb rb && rv
     then inl (Ereport ERRCODE_INVALID_FUNCTION_DEFINITION
                 "only boolean operators can have restriction selectivity" [] None)
     else if negb rb && jv
     then inl (Ereport ERRCODE_INVALID_FUNCTION_DEFINITION
                 "only boolean operators can have join selectivity" [] None)
     else X) = inl e /\
    err_code e = ERRCODE_INVALID_FUNCTION_DEFINITION.
Proof. destruct b, rb, rv, jv; simpl; try discriminate; eexists; split; reflexivity. Qed.

(** The option loop's restriction (join) name is the last option's. *)
Lemma estimator_named env opts a k n :
  run (AlterOperator_options env AlterOptions_init opts) = inr a ->
  (k = "restrict" /\ n = alter_restrictionName a \/
   k = "join" /\ n = alter_joinName a) ->
  nonnil n = true ->
  exists d', last_opt k opts = Some d' /\ param_of env d' = inr n.
Proof.
  intros Ho Hk Hn.
  destruct (AlterOperator_options_last _ _ _ _ Ho) as [Lr Lj].
  destruct Hk as [[-> ->]|[-> ->]].
  - destruct (last_opt "restrict" opts) as [d|]; [exists d; split; [reflexivity|apply Lr]|].
    destruct Lr as [E _]. rewrite E in Hn. discriminate.
  - destruct (last_opt "join" opts) as [d|]; [exists d; split; [reflexivity|apply Lj]|].
    destruct Lj as [E _]. rewrite E in Hn. discriminate.
Qed.

Lemma estimator_valid_if_named env opts a k d :
  run (AlterOperator_options env AlterOptions_init opts) = inr a ->
  last_opt k opts = Some d -> param_of env d <> inr [] ->
  (k = "restrict" /\ nonnil (alter_restrictionName a) = true \/
   k = "join" /\ nonnil (alter_joinName a) = true) \/
  (k <> "restrict" /\ k <> "join").
Proof.
  intros Ho Hl Hp.
  destruct (AlterOperator_options_last _ _ _ _ Ho) as [Lr Lj].
  destruct (String.eqb_spec k "restrict") as [->|Hr].
  - left; left; split; [reflexivity|].
    rewrite Hl in Lr. destruct Lr as [_ E]. rewrite E in Hp.
    destruct (alter_restrictionName a); [congruence|reflexivity].
  - destruct (String.eqb_spec k "join") as [->|Hj].
    + left; right; split; [reflexivity|].
      rewrite Hl in Lj. destruct Lj as [_ E]. rewrite E in Hp.
      destruct (alter_joinName a); [congruence|reflexivity].
    + right; split; assumption.
Qed.

Lemma AlterOperator_modify_forbidden env oprId f opts :
  forbidden_estimator env f opts ->
  exists e, run (AlterOperator_modify env oprId f opts) = inl e /\
    (err_code e = ERRCODE_INVALID_FUNCTION_DEFINITION \/
     run (AlterOperator_options env AlterOptions_init opts) = inl e \/
     pg_oper_ownercheck env oprId = false \/
     estimator_error env opts e).
Proof.
  intros Hf. rewrite run_AlterOperator_modify.
  destruct (run (AlterOperator_options env AlterOptions_init opts)) as [e|a] eqn:Ho.
  { exists e; split; [reflexivity|auto]. }
  destruct (pg_oper_ownercheck env oprId) eqn:Hown; simpl.
  2:{ eexists; split; [reflexivity|auto]. }
  destruct (if nonnil (alter_restrictionName a)
            then run (ValidateRestrictionEstimator env (alter_restrictionName a))
            else inr InvalidOid) as [e|r] eqn:HR.
  { exists e; split; [reflexivity|]. right; right; right.
    destruct (nonnil (alter_restrictionName a)) eqn:Hn; [|discriminate].
    destruct (estimator_named env opts a "restrict" (alter_restrictionName a) Ho (or_introl (conj eq_refl eq_refl)) Hn)
      as [d [Hl Hp]].
    exists d, (alter_restrictionName a). split; [exact Hp|]. left; auto. }
  destruct (if nonnil (alter_joinName a)
            then run (ValidateJoinEstimator env (alter_joinName a))
            else inr InvalidOid) as [e|j] eqn:HJ.
  { exists e; split; [reflexivity|]. right; right; right.
    destruct (nonnil (alter_joinName a)) eqn:Hn; [|discriminate].
    destruct (estimator_named env opts a "join" (alter_joinName a) Ho (or_intror (conj eq_refl eq_refl)) Hn)
      as [d [Hl Hp]].
    exists d, (alter_joinName a). split; [exact Hp|]. right; auto. }
  assert (Rv : nonnil (alter_restrictionName a) = true -> OidIsValid r = true).
  { intros Hn. rewrite Hn in HR. eapply ValidateRestrictionEstimator_valid; exact HR. }
  assert (Jv : nonnil (alter_joinName a) = true -> OidIsValid j = true).
  { intros Hn. rewrite Hn in HJ. eapply ValidateJoinEstimator_valid; exact HJ. }
  assert (Hcond : (negb (binary_form f) && OidIsValid j) ||
                  (negb (N.eqb (oprresult f) BOOLOID) &&
                   (OidIsValid r || OidIsValid j)) = true).
  2:{ match goal with
      | |- exists e, (if _ then _ else if _ then _ else if _ then _ else ?X)
                     = inl e /\ _ =>
          destruct (shape_checks_fail _ _ _ _ X Hcond) as [e [He Hc]]
      end.
      exists e; split; [exact He|left; exact Hc]. }
  destruct Hf as [[Hb [d [Hl Hp]]] | [Hres [k [d [Hk [Hl Hp]]]]]].
  - destruct (estimator_valid_if_named env opts a "join" d Ho Hl Hp)
      as [[[Hk _]|[_ Hn]]|[_ Hk]]; [discriminate| |congruence].
    rewrite Hb, (Jv Hn). reflexivity.
  - assert (Hr : N.eqb (oprresult f) BOOLOID = false) by (apply N.eqb_neq; exact Hres).
    rewrite Hr. rewrite orb_comm. simpl.
    destruct (estimator_valid_if_named env opts a k d Ho Hl Hp)
      as [[[_ Hn]|[_ Hn]]|[H1 H2]].
    + rewrite (Rv Hn).
      destruct (negb (binary_form f)), (OidIsValid j); reflexivity.
    + rewrite (Jv Hn).
      destruct (negb (binary_form f)), (OidIsValid r); reflexivity.
    + destruct Hk; contradiction.
Qed.

Lemma AlterOperator_modify_preserves env oprId f opts f' :
  run (AlterOperator_modify env oprId f opts) = inr f' ->
  shape_invariants f = true -> shape_invariants f' = true.
Proof.
  rewrite run_AlterOperator_modify.
  destruct (run (AlterOperator_options env AlterOptions_init opts)) as [e|a];
    [discriminate|].
  destruct (negb (pg_oper_ownercheck env oprId)); [discriminate|].
  destruct (if nonnil (alter_restrictionName a) then _ else _) as [e|r];
    [discriminate|].
  destruct (if nonnil (alter_joinName a) then _ else _) as [e|j];
    [discriminate|].
  destruct (negb (binary_form f) && OidIsValid j) eqn:C1; [discriminate|].
  destruct (negb (N.eqb (oprresult f) BOOLOID) && OidIsValid r) eqn:C2;
    [discriminate|].
  destruct (negb (N.eqb (oprresult f) BOOLOID) && OidIsValid j) eqn:C3;
    [discriminate|].
  intros E; injection E as <-.
  unfold shape_invariants, I4, I5, binary_form in *.
  destruct (updateRestriction a), (updateJoin a); simpl; bool_cases.
Qed.

Lemma sample_catalog_wf : tids_wf sample_catalog.
Proof.
  unfold tids_wf, sample_catalog.
  repeat apply map_Forall_insert_2; [reflexivity..|apply map_Forall_empty].
Qed.

(** Claim C3 (as stated): a join estimator supplied for a non-binary
    operator is rejected with InvalidDefinition.  The estimator is looked up
    before the shape is checked: for the prefix operator [@], an unknown
    join estimator fails UndefinedFunction. *)
Lemma C3_lookup_error_first :
  binary_form form_at = false /\
  (AlterOperator env0
     (mkAlterOperatorStmt (opname "@") [mkDefElem "join" (Some (NString "nosuchsel"))])
     sample_state).2 = inl (FuncNotFound ["nosuchsel"] JOINSEL_ARGS) /\
  err_code (FuncNotFound ["nosuchsel"] JOINSEL_ARGS)
    <> ERRCODE_INVALID_FUNCTION_DEFINITION.
Proof. vm_compute. repeat split; discriminate. Qed.

(** Claim C3 (amended): the shape checks of AlterOperator read the stored
    row.  When the last join option names an estimator and the stored
    operator is not binary, or the last restrict or join option names an
    estimator and the stored result is not boolean, the request fails; its
    error is InvalidDefinition unless the option loop, the ownership check
    or the lookup of one of the named estimators (the restriction
    estimator or the join estimator, whichever the options name) failed
    first.  An alteration that
    succeeds on a row satisfying I4 and I5 writes a row satisfying them. *)
Theorem AlterOperator_checks_stored_shape env stmt m tr oprId tup :
  tids_wf m ->
  LookupOperWithArgs env (opername stmt) = inr oprId ->
  m !! oprId = Some tup ->
  (forbidden_estimator env (t_data tup) (options stmt) ->
   exists e, (AlterOperator env stmt (mkState m tr)).2 = inl e /\
     (err_code e = ERRCODE_INVALID_FUNCTION_DEFINITION \/
      run (AlterOperator_options env AlterOptions_init (options stmt)) = inl e \/
      pg_oper_ownercheck env oprId = false \/
      estimator_error env (options stmt) e)) /\
  (forall s' o, AlterOperator env stmt (mkState m tr) = (s', inr o) ->
   shape_invariants (t_data tup) = true ->
   exists t', pg_operator s' !! oprId = Some t' /\
              shape_invariants (t_data t') = true).
Proof.
  intros Hwf HL Ht.
  destruct (AlterOperator_run env stmt m tr oprId tup Hwf HL Ht) as [tr' E].
  split.
  - intros Hf.
    destruct (AlterOperator_modify_forbidden env oprId (t_data tup) (options stmt) Hf)
      as [e [He Hd]].
    exists e. rewrite E, He. split; [reflexivity|exact Hd].
  - intros s' o Hs Hi. rewrite E in Hs.
    destruct (run (AlterOperator_modify env oprId (t_data tup) (options stmt)))
      as [e|f'] eqn:Hm; [discriminate|].
    injection Hs as <- _. cbn [pg_operator].
    eexists. rewrite lookup_insert_eq. split; [reflexivity|].
    cbn [t_data]. eapply AlterOperator_modify_preserves; [exact Hm|exact Hi].
Qed.

Lemma AlterOperator_checks_stored_shape_witness :
  forbidden_estimator env0 form_at [mkDefElem "join" (Some (NString "eqjoinsel"))] /\
  (exists e,
     (AlterOperator env0
        (mkAlterOperatorStmt (opname "@") [mkDefElem "join" (Some (NString "eqjoinsel"))])
        sample_state).2 = inl e /\
     (err_code e = ERRCODE_INVALID_FUNCTION_DEFINITION \/
      run (AlterOperator_options env0 AlterOptions_init
             [mkDefElem "join" (Some (NString "eqjoinsel"))]) = inl e \/
      pg_oper_ownercheck env0 500 = false \/
      estimator_error env0 [mkDefElem "join" (Some (NString "eqjoinsel"))] e)) /\
  (forall s' o,
     AlterOperator env0
       (mkAlterOperatorStmt (opname "=") [mkDefElem "restrict" (Some (NString "eqsel"))])
       sample_state = (s', inr o) ->
     shape_invariants form_eq = true ->
     exists t', pg_operator s' !! 96 = Some t' /\
                shape_invariants (t_data t') = true).
Proof.
  assert (Hf : forbidden_estimator env0 form_at
                 [mkDefElem "join" (Some (NString "eqjoinsel"))]).
  { left. split; [reflexivity|].
    eexists; split; [reflexivity|]. vm_compute. discriminate. }
  split; [exact Hf|]. split.
  - exact (proj1 (AlterOperator_checks_stored_shape env0
             (mkAlterOperatorStmt (opname "@") [mkDefElem "join" (Some (NString "eqjoinsel"))])
             sample_catalog [] 500 (mkHeapTuple (500, 0) form_at)
             sample_catalog_wf eq_refl eq_refl) Hf).
  - exact (proj2 (AlterOperator_checks_stored_shape env0
             (mkAlterOperatorStmt (opname "=") [mkDefElem "restrict" (Some (NString "eqsel"))])
             sample_catalog [] 96 (mkHeapTuple (96, 0) form_eq)
             sample_catalog_wf eq_refl eq_refl)).
Defined.

(** ** What AlterOperator writes *)

Lemma AlterOperator_modify_frame env oprId f opts f' :
  run (AlterOperator_modify env oprId f opts) = inr f' ->
  f' = set_oprjoin (set_oprrest f (oprrest f')) (oprjoin f') /\
  (last_opt "restrict" opts = None -> oprrest f' = oprrest f) /\
  (last_opt "join" opts = None -> oprjoin f' = oprjoin f) /\
  (forall d, last_opt "restrict" opts = Some d -> arg d = None ->
   oprrest f' = InvalidOid) /\
  (forall d, last_opt "join" opts = Some d -> arg d = None ->
   oprjoin f' = InvalidOid).
Proof.
  rewrite run_AlterOperator_modify. intros H.
  destruct (run (AlterOperator_options env AlterOptions_init opts)) as [e|a] eqn:Ho;
    [discriminate|].
  destruct (AlterOperator_options_last _ _ _ _ Ho) as [Lr Lj].
  cbn [alter_restrictionName updateRestriction alter_joinName updateJoin
       AlterOptions_init] in Lr, Lj.
  destruct (negb (pg_oper_ownercheck env oprId)); [discriminate|].
  destruct (if nonnil (alter_restrictionName a) then _ else _) as [e|r] eqn:HR;
    [discriminate|].
  destruct (if nonnil (alter_joinName a) then _ else _) as [e|j] eqn:HJ;
    [discriminate|].
  destruct (negb (binary_form f) && OidIsValid j); [discriminate|].
  destruct (negb (N.eqb (oprresult f) BOOLOID) && OidIsValid r); [discriminate|].
  destruct (negb (N.eqb (oprresult f) BOOLOID) && OidIsValid j); [discriminate|].
  injection H as <-.
  split; [|split; [|split; [|split]]].
  - destruct (updateRestriction a), (updateJoin a); destruct f; reflexivity.
  - intros Hn. rewrite Hn in Lr. destruct Lr as [_ ->].
    destruct (updateJoin a); reflexivity.
  - intros Hn. rewrite Hn in Lj. destruct Lj as [_ ->].
    destruct (updateRestriction a); reflexivity.
  - intros d Hl Harg. rewrite Hl in Lr. destruct Lr as [Hu Hp].
    unfold param_of in Hp. rewrite Harg in Hp. injection Hp as Hp.
    rewrite <- Hp in HR. cbn in HR. injection HR as <-.
    rewrite Hu. destruct (updateJoin a); reflexivity.
  - intros d Hl Harg. rewrite Hl in Lj. destruct Lj as [Hu Hp].
    unfold param_of in Hp. rewrite Harg in Hp. injection Hp as Hp.
    rewrite <- Hp in HJ. cbn in HJ. injection HJ as <-.
    rewrite Hu. reflexivity.
Qed.

(** Claim C7: AlterOperator writes only the row it alters, and in it only
    the estimator fields: a failed request leaves pg_operator as it was; a
    successful one replaces the row by a form equal to the stored one
    except for oprrest and oprjoin, keeps the field of an estimator that no
    option names, and clears the field whose last option is NONE. *)
Theorem AlterOperator_partial_update env stmt m tr oprId tup :
  tids_wf m ->
  LookupOperWithArgs env (opername stmt) = inr oprId ->
  m !! oprId = Some tup ->
  (forall s' e, AlterOperator env stmt (mkState m tr) = (s', inl e) ->
   pg_operator s' = m) /\
  (forall s' o, AlterOperator env stmt (mkState m tr) = (s', inr o) ->
   exists f',
     pg_operator s' = <[oprId := mkHeapTuple (oprId, N.succ (t_self tup).2) f']> m /\
     f' = set_oprjoin (set_oprrest (t_data tup) (oprrest f')) (oprjoin f') /\
     (last_opt "restrict" (options stmt) = None ->
      oprrest f' = oprrest (t_data tup)) /\
     (last_opt "join" (options stmt) = None ->
      oprjoin f' = oprjoin (t_data tup)) /\
     (forall d, last_opt "restrict" (options stmt) = Some d -> arg d = None ->
      oprrest f' = InvalidOid) /\
     (forall d, last_opt "join" (options stmt) = Some d -> arg d = None ->
      oprjoin f' = InvalidOid)).
Proof.
  intros Hwf HL Ht.
  destruct (AlterOperator_run env stmt m tr oprId tup Hwf HL Ht) as [tr' E].
  rewrite E.
  destruct (run (AlterOperator_modify env oprId (t_data tup) (options stmt)))
    as [e|f'] eqn:Hm.
  - split; [intros s' e' H; injection H as <- _; reflexivity|].
    intros s' o H; discriminate.
  - split; [intros s' e' H; discriminate|].
    intros s' o H. injection H as <- _.
    exists f'. split; [reflexivity|].
    exact (AlterOperator_modify_frame _ _ _ _ _ Hm).
Qed.

Lemma AlterOperator_partial_update_witness :
  AlterOperator env0
    (mkAlterOperatorStmt (opname "=") [mkDefElem "join" None]) sample_state
  = (mkState (<[96 := mkHeapTuple (96, 1) (set_oprjoin form_eq InvalidOid)]>
                sample_catalog)
             [EvSearchSysCache 96; EvTupleUpdate (96, 0);
              EvMakeOperatorDependencies 96; EvPostAlterHook 96],
     inr 96) /\
  ((forall s' e,
     AlterOperator env0 (mkAlterOperatorStmt (opname "=") [mkDefElem "join" None])
       sample_state = (s', inl e) -> pg_operator s' = sample_catalog) /\
   (forall s' o,
     AlterOperator env0 (mkAlterOperatorStmt (opname "=") [mkDefElem "join" None])
       sample_state = (s', inr o) ->
     exists f',
       pg_operator s' = <[96 := mkHeapTuple (96, N.succ 0) f']> sample_catalog /\
       f' = set_oprjoin (set_oprrest form_eq (oprrest f')) (oprjoin f') /\
       (last_opt "restrict" [mkDefElem "join" None] = None ->
        oprrest f' = oprrest form_eq) /\
       (last_opt "join" [mkDefElem "join" None] = None ->
        oprjoin f' = oprjoin form_eq) /\
       (forall d, last_opt "restrict" [mkDefElem "join" None] = Some d ->
        arg d = None -> oprrest f' = InvalidOid) /\
       (forall d, last_opt "join" [mkDefElem "join" None] = Some d ->
        arg d = None -> oprjoin f' = InvalidOid))).
Proof.
  split; [vm_compute; reflexivity|].
  exact (AlterOperator_partial_update env0
           (mkAlterOperatorStmt (opname "=") [mkDefElem "join" None])
           sample_catalog [] 96 (mkHeapTuple (96, 0) form_eq)
           sample_catalog_wf eq_refl eq_refl).
Defined.

(** ** Clearing an estimator *)

Lemma LookupFuncName_error env n k tys mok e :
  run (LookupFuncName env n k tys mok) = inl e ->
  err_code e = ERRCODE_UNDEFINED_FUNCTION.
Proof.
  rewrite run_LookupFuncName.
  destruct (func_lookup env n (firstn k tys)); [discriminate|].
  destruct mok; [discriminate|]. intros H; injection H as <-. reflexivity.
Qed.

Ltac validator_error :=
  repeat match goal with
  | H : run (LookupFuncName _ _ _ _ _) = inl _ |- _ =>
      apply LookupFuncName_error in H
  end;
  intros E; try discriminate; injection E as <-; simpl; try discriminate;
  congruence.

Lemma ValidateRestrictionEstimator_error env n e :
  run (ValidateRestrictionEstimator env n) = inl e ->
  err_code e <> ERRCODE_INVALID_FUNCTION_DEFINITION.
Proof.
  unfold ValidateRestrictionEstimator, ereport. cbv zeta.
  run_split; validator_error.
Qed.

Lemma ValidateJoinEstimator_error env n e :
  run (ValidateJoinEstimator env n) = inl e ->
  err_code e <> ERRCODE_INVALID_FUNCTION_DEFINITION.
Proof.
  unfold ValidateJoinEstimator, ereport. cbv zeta.
  run_split; validator_error.
Qed.

Lemma AlterOperator_options_clear env opts :
  Forall (fun d => (defname d = "restrict" \/ defname d = "join") /\
                   arg d = None) opts ->
  forall a, alter_restrictionName a = [] -> alter_joinName a = [] ->
  exists a', run (AlterOperator_options env a opts) = inr a' /\
             alter_restrictionName a' = [] /\ alter_joinName a' = [].
Proof.
  induction 1 as [|d r [Hk Ha] Hr IH]; intros a H1 H2.
  - exists a. auto.
  - rewrite run_AlterOperator_options_cons, run_AlterOperator_option.
    unfold param_of. rewrite Ha.
    destruct Hk as [Hk|Hk]; rewrite Hk; cbn -[AlterOperator_options].
    + apply IH; simpl; auto.
    + apply IH; simpl; auto.
Qed.

Ltac clear_shape_checks H :=
  cbn [OidIsValid InvalidOid N.eqb Pos.eqb negb] in H;
  rewrite ?andb_false_r in H;
  unfold restrict_shape_error, join_binary_error, join_bool_error;
  repeat match type of H with
  | context [if ?c then _ else _] => destruct c
  end;
  first [ discriminate H
        | injection H as <-; try split; discriminate ].

Lemma AlterOperator_modify_clear env oprId f opts e :
  run (AlterOperator_modify env oprId f opts) = inl e ->
  (forall d a, last_opt "restrict" opts = Some d -> arg d = None ->
   run (AlterOperator_options env AlterOptions_init opts) = inr a ->
   e <> restrict_shape_error) /\
  (forall d a, last_opt "join" opts = Some d -> arg d = None ->
   run (AlterOperator_options env AlterOptions_init opts) = inr a ->
   e <> join_binary_error /\ e <> join_bool_error).
Proof.
  rewrite run_AlterOperator_modify. intros H.
  split; intros d a Hl Harg Ho; rewrite Ho in H;
    destruct (AlterOperator_options_last _ _ _ _ Ho) as [Lr Lj].
  - rewrite Hl in Lr. destruct Lr as [_ Hp].
    unfold param_of in Hp. rewrite Harg in Hp. injection Hp as Hp.
    rewrite <- Hp in H. cbn [nonnil] in H.
    destruct (negb (pg_oper_ownercheck env oprId)).
    { injection H as <-. discriminate. }
    destruct (if nonnil (alter_joinName a) then _ else _) as [e'|j] eqn:HJ.
    { injection H as <-. intros E.
      destruct (nonnil (alter_joinName a)); [|discriminate].
      apply ValidateJoinEstimator_error in HJ. rewrite E in HJ. apply HJ. reflexivity. }
    clear_shape_checks H.
  - rewrite Hl in Lj. destruct Lj as [_ Hp].
    unfold param_of in Hp. rewrite Harg in Hp. injection Hp as Hp.
    rewrite <- Hp in H. cbn [nonnil] in H.
    destruct (negb (pg_oper_ownercheck env oprId)).
    { injection H as <-. split; discriminate. }
    destruct (if nonnil (alter_restrictionName a) then _ else _) as [e'|r] eqn:HR.
    { injection H as <-.
      destruct (nonnil (alter_restrictionName a)); [|discriminate].
      apply ValidateRestrictionEstimator_error in HR.
      split; intros E; rewrite E in HR; apply HR; reflexivity. }
    clear_shape_checks H.
Qed.

Lemma AlterOperator_modify_clear_ok env oprId f opts :
  pg_oper_ownercheck env oprId = true ->
  Forall (fun d => (defname d = "restrict" \/ defname d = "join") /\
                   arg d = None) opts ->
  exists f', run (AlterOperator_modify env oprId f opts) = inr f' /\
             oid f' = oid f.
Proof.
  intros Hown Hall. rewrite run_AlterOperator_modify.
  destruct (AlterOperator_options_clear env opts Hall AlterOptions_init
              eq_refl eq_refl) as [a [Ho [H1 H2]]].
  rewrite Ho, Hown, H1, H2. cbn.
  destruct (negb (binary_form f)), (negb (oprresult f =? BOOLOID));
    cbn; eexists; split; try reflexivity;
    destruct (updateRestriction a), (updateJoin a); reflexivity.
Qed.

(** Claim C9 (as stated): a request that supplies restrict with no value
    skips the restriction shape check.  A later restrict option with a value
    overrides the clearing: on the int4 operator [+] the request below
    fails the restriction shape check although it supplies restrict=NONE. *)
Lemma C9_later_option_wins :
  oprresult form_plus <> BOOLOID /\
  (AlterOperator env0
     (mkAlterOperatorStmt (opname "+")
        [mkDefElem "restrict" None; mkDefElem "restrict" (Some (NString "eqsel"))])
     sample_state).2 = inl restrict_shape_error.
Proof. vm_compute. split; [discriminate|reflexivity]. Qed.

(** Claim C9 (amended): when the last restrict (join) option of the
    request is NONE and the option loop succeeds, AlterOperator does not
    fail with the restriction (join) shape error, whatever the stored
    shape; a request by the owner whose options all clear restrict or join
    succeeds on every stored shape. *)
Theorem AlterOperator_clear_skips_shape env stmt m tr oprId tup :
  tids_wf m ->
  LookupOperWithArgs env (opername stmt) = inr oprId ->
  m !! oprId = Some tup ->
  (forall d a e,
     last_opt "restrict" (options stmt) = Some d -> arg d = None ->
     run (AlterOperator_options env AlterOptions_init (options stmt)) = inr a ->
     (AlterOperator env stmt (mkState m tr)).2 = inl e ->
     e <> restrict_shape_error) /\
  (forall d a e,
     last_opt "join" (options stmt) = Some d -> arg d = None ->
     run (AlterOperator_options env AlterOptions_init (options stmt)) = inr a ->
     (AlterOperator env stmt (mkState m tr)).2 = inl e ->
     e <> join_binary_error /\ e <> join_bool_error) /\
  (pg_oper_ownercheck env oprId = true ->
   Forall (fun d => (defname d = "restrict" \/ defname d = "join") /\
                    arg d = None) (options stmt) ->
   (AlterOperator env stmt (mkState m tr)).2 = inr (oid (t_data tup))).
Proof.
  intros Hwf HL Ht.
  destruct (AlterOperator_run env stmt m tr oprId tup Hwf HL Ht) as [tr' E].
  rewrite E.
  split; [|split].
  - intros d a e Hl Harg Ho Hr.
    destruct (run (AlterOperator_modify env oprId (t_data tup) (options stmt)))
      as [e'|f'] eqn:Hm; [|discriminate].
    injection Hr as <-.
    exact (proj1 (AlterOperator_modify_clear _ _ _ _ _ Hm) d a Hl Harg Ho).
  - intros d a e Hl Harg Ho Hr.
    destruct (run (AlterOperator_modify env oprId (t_data tup) (options stmt)))
      as [e'|f'] eqn:Hm; [|discriminate].
    injection Hr as <-.
    exact (proj2 (AlterOperator_modify_clear _ _ _ _ _ Hm) d a Hl Harg Ho).
  - intros Hown Hall.
    destruct (AlterOperator_modify_clear_ok env oprId (t_data tup) (options stmt)
                Hown Hall) as [f' [Hm Hoid]].
    rewrite Hm. cbn. rewrite Hoid. reflexivity.
Qed.

Lemma AlterOperator_clear_skips_shape_witness :
  Forall (fun d => (defname d = "restrict" \/ defname d = "join") /\
                   arg d = None)
    [mkDefElem "restrict" None; mkDefElem "join" None] /\
  (AlterOperator env0
     (mkAlterOperatorStmt (opname "@")
        [mkDefElem "restrict" None; mkDefElem "join" None])
     sample_state).2 = inr (oid form_at) /\
  (AlterOperator env0
     (mkAlterOperatorStmt (opname "@")
        [mkDefElem "restrict" None; mkDefElem "join" (Some (NString "eqjoinsel"))])
     sample_state).2 = inl join_binary_error /\
  join_binary_error <> restrict_shape_error.
Proof.
  assert (Hall : Forall (fun d => (defname d = "restrict" \/ defname d = "join") /\
                                  arg d = None)
                   [mkDefElem "restrict" None; mkDefElem "join" None]).
  { repeat apply List.Forall_cons; try apply List.Forall_nil;
      split; simpl; auto. }
  assert (Hr : (AlterOperator env0
     (mkAlterOperatorStmt (opname "@")
        [mkDefElem "restrict" None; mkDefElem "join" (Some (NString "eqjoinsel"))])
     sample_state).2 = inl join_binary_error) by (vm_compute; reflexivity).
  assert (Ho : run (AlterOperator_options env0 AlterOptions_init
                 [mkDefElem "restrict" None; mkDefElem "join" (Some (NString "eqjoinsel"))])
               = inr (mkAlterOptions [] true ["eqjoinsel"] true))
    by (vm_compute; reflexivity).
  split; [exact Hall|]. split.
  - exact (proj2 (proj2 (AlterOperator_clear_skips_shape env0
             (mkAlterOperatorStmt (opname "@")
                [mkDefElem "restrict" None; mkDefElem "join" None])
             sample_catalog [] 500 (mkHeapTuple (500, 0) form_at)
             sample_catalog_wf eq_refl eq_refl)) eq_refl Hall).
  - split; [exact Hr|].
    exact (proj1 (AlterOperator_clear_skips_shape env0
             (mkAlterOperatorStmt (opname "@")
                [mkDefElem "restrict" None; mkDefElem "join" (Some (NString "eqjoinsel"))])
             sample_catalog [] 500 (mkHeapTuple (500, 0) form_at)
             sample_catalog_wf eq_refl eq_refl)
             (mkDefElem "restrict" None) _ join_binary_error eq_refl eq_refl Ho Hr).
Defined.

(** ** Keys ALTER OPERATOR cannot change *)

Lemma AlterOperator_options_app env pre l :
  Forall (fun d => (defname d = "restrict" \/ defname d = "join") /\
                   exists n, param_of env d = inr n) pre ->
  forall a, exists a',
    run (AlterOperator_options env a (pre ++ l)) =
    run (AlterOperator_options env a' l).
Proof.
  induction 1 as [|d r [Hk [n Hn]] Hr IH]; intros a.
  - exists a. reflexivity.
  - cbn [app]. rewrite run_AlterOperator_options_cons, run_AlterOperator_option, Hn.
    destruct Hk as [Hk|Hk]; rewrite Hk; cbn -[AlterOperator_options]; apply IH.
Qed.

Lemma immutable_key_not_alterable k :
  immutable_key k = true -> k <> "restrict" /\ k <> "join".
Proof. intros H; split; intros ->; discriminate H. Qed.

Lemma AlterOperator_options_immutable env a d rest :
  immutable_key (defname d) = true ->
  (exists n, param_of env d = inr n) ->
  run (AlterOperator_options env a (d :: rest)) =
  inl (immutable_error (defname d)).
Proof.
  intros Hk [n Hn].
  destruct (immutable_key_not_alterable _ Hk) as [Hr Hj].
  rewrite run_AlterOperator_options_cons, run_AlterOperator_option, Hn.
  apply String.eqb_neq in Hr, Hj. rewrite Hr, Hj, Hk. reflexivity.
Qed.

(** Claim C6 (as stated): a creation-time key fails ALTER OPERATOR with an
    error class distinct from the one of an unknown key.  Both errors carry
    ERRCODE_SYNTAX_ERROR and differ only in their message; an unknown key
    listed before [hashes] makes the request fail as unrecognized; and
    [hashes = 1] fails in defGetQualifiedName, before the key is
    examined. *)
Lemma C6_same_error_class :
  (AlterOperator env0 (mkAlterOperatorStmt (opname "=") [mkDefElem "hashes" None])
     sample_state).2 = inl (immutable_error "hashes") /\
  (AlterOperator env0 (mkAlterOperatorStmt (opname "=") [mkDefElem "foo" None])
     sample_state).2 = inl (unrecognized_error "foo") /\
  err_code (immutable_error "hashes") = err_code (unrecognized_error "foo") /\
  (AlterOperator env0
     (mkAlterOperatorStmt (opname "=") [mkDefElem "foo" None; mkDefElem "hashes" None])
     sample_state).2 = inl (unrecognized_error "foo") /\
  (AlterOperator env0
     (mkAlterOperatorStmt (opname "=") [mkDefElem "hashes" (Some (NInteger 1))])
     sample_state).2
  = inl (ExtError ERRCODE_SYNTAX_ERROR "argument must be a name") /\
  ExtError ERRCODE_SYNTAX_ERROR "argument must be a name"
  <> immutable_error "hashes".
Proof. vm_compute. repeat split; discriminate. Qed.

(** Claim C6 (amended): when the operator is found and every option before
    the first creation-time key (leftarg, rightarg, function, procedure,
    commutator, negator, hashes, merges) is a restrict or join option whose
    value parses, and the key's own value is NONE or parses as a name (the
    loop reads the value before it looks at the key), AlterOperator fails
    with "operator attribute %s cannot be changed" for that key.  This error and "operator attribute %s not
    recognized" share the SQLSTATE ERRCODE_SYNTAX_ERROR; only the message
    tells them apart. *)
Theorem AlterOperator_immutable_key_fails env stmt m tr oprId tup pre d rest :
  tids_wf m ->
  LookupOperWithArgs env (opername stmt) = inr oprId ->
  m !! oprId = Some tup ->
  options stmt = pre ++ d :: rest ->
  Forall (fun d' => (defname d' = "restrict" \/ defname d' = "join") /\
                    exists n, param_of env d' = inr n) pre ->
  immutable_key (defname d) = true ->
  (exists n, param_of env d = inr n) ->
  (AlterOperator env stmt (mkState m tr)).2 = inl (immutable_error (defname d)) /\
  err_code (immutable_error (defname d)) = ERRCODE_SYNTAX_ERROR /\
  err_code (unrecognized_error (defname d)) = ERRCODE_SYNTAX_ERROR /\
  immutable_error (defname d) <> unrecognized_error (defname d).
Proof.
  intros Hwf HL Ht Hopts Hpre Hk Hn.
  destruct (AlterOperator_run env stmt m tr oprId tup Hwf HL Ht) as [tr' E].
  rewrite E, run_AlterOperator_modify, Hopts.
  destruct (AlterOperator_options_app env pre (d :: rest) Hpre AlterOptions_init)
    as [a' Ha]. rewrite Ha.
  rewrite (AlterOperator_options_immutable env a' d rest Hk Hn).
  split; [reflexivity|]. split; [reflexivity|]. split; [reflexivity|].
  discriminate.
Qed.

Lemma AlterOperator_immutable_key_fails_witness :
  (AlterOperator env0
     (mkAlterOperatorStmt (opname "=")
        [mkDefElem "restrict" (Some (NString "eqsel")); mkDefElem "hashes" None])
     sample_state).2 = inl (immutable_error "hashes") /\
  err_code (immutable_error "hashes") = ERRCODE_SYNTAX_ERROR /\
  err_code (unrecognized_error "hashes") = ERRCODE_SYNTAX_ERROR /\
  immutable_error "hashes" <> unrecognized_error "hashes".
Proof.
  apply (AlterOperator_immutable_key_fails env0
           (mkAlterOperatorStmt (opname "=")
              [mkDefElem "restrict" (Some (NString "eqsel")); mkDefElem "hashes" None])
           sample_catalog [] 96 (mkHeapTuple (96, 0) form_eq)
           [mkDefElem "restrict" (Some (NString "eqsel"))]
           (mkDefElem "hashes" None) []).
  - exact sample_catalog_wf.
  - reflexivity.
  - reflexivity.
  - reflexivity.
  - apply List.Forall_cons; [|apply List.Forall_nil].
    split; [left; reflexivity|]. eexists; reflexivity.
  - reflexivity.
  - eexists; reflexivity.
Defined.

(** ** The definition list of DefineOperator *)

Lemma run_DefineOperator_param env p d :
  run (DefineOperator_param env p d) =
  match param_kind_of (defname d) with
  | PKleftarg =>
      match defGetTypeName env d with
      | inl e => inl e
      | inr t => if setof t then inl setof_error
                 else inr (set_typeName1 p (Some t))
      end
  | PKrightarg =>
      match defGetTypeName env d with
      | inl e => inl e
      | inr t => if setof t then inl setof_error
                 else inr (set_typeName2 p (Some t))
      end
  | PKfunction =>
      match defGetQualifiedName env d with
      | inl e => inl e | inr n => inr (set_functionName p n) end
  | PKcommutator =>
      match defGetQualifiedName env d with
      | inl e => inl e | inr n => inr (set_commutatorName p n) end
  | PKnegator =>
      match defGetQualifiedName env d with
      | inl e => inl e | inr n => inr (set_negatorName p n) end
  | PKrestrict =>
      match defGetQualifiedName env d with
      | inl e => inl e | inr n => inr (set_restrictionName p n) end
  | PKjoin =>
      match defGetQualifiedName env d with
      | inl e => inl e | inr n => inr (set_joinName p n) end
  | PKhashes =>
      match defGetBoolean env d with
      | inl e => inl e | inr b => inr (set_canHash p b) end
  | PKmerges =>
      match defGetBoolean env d with
      | inl e => inl e | inr b => inr (set_canMerge p b) end
  | PKmerge_alias => inr (set_canMerge p true)
  | PKunknown => inr p
  end.
Proof.
  unfold DefineOperator_param, param_kind_of, ereport, setof_error.
  run_split;
    try match goal with
    | H : run (emit _) = inl _ |- _ => rewrite run_emit in H; discriminate H
    end;
    destruct (defGetTypeName env d) as [e|t]; try reflexivity;
    destruct (setof t); reflexivity.
Qed.

Lemma run_DefineOperator_params_cons env p d r :
  run (DefineOperator_params env p (d :: r)) =
  match run (DefineOperator_param env p d) with
  | inl e => inl e
  | inr p1 => run (DefineOperator_params env p1 r)
  end.
Proof. simpl. apply run_bind; intros; solve_trace_only. Qed.

Section LastField.
Variable env : Env.
Variables (A : Type) (P : string -> bool) (get : DefineParams -> A)
  (R : DefElem -> A -> Prop).
(** One iteration sets the field from the element when its key is one of
    [P], and keeps it otherwise. *)
Hypothesis step : forall p d p1,
  run (DefineOperator_param env p d) = inr p1 ->
  if P (defname d) then R d (get p1) else get p1 = get p.

Lemma DefineOperator_params_last_field ps :
  forall p p', run (DefineOperator_params env p ps) = inr p' ->
  match last_by P ps with
  | None => get p' = get p
  | Some d => R d (get p')
  end.
Proof.
  induction ps as [|d r IH]; intros p p' H.
  - simpl in H. rewrite run_ret in H. injection H as <-. reflexivity.
  - rewrite run_DefineOperator_params_cons in H.
    destruct (run (DefineOperator_param env p d)) as [e|p1] eqn:H1;
      [discriminate|].
    specialize (IH p1 p' H). simpl last_by.
    destruct (last_by P r) as [x|]; [exact IH|].
    apply step in H1. rewrite <- IH in H1.
    destruct (P (defname d)); exact H1.
Qed.
End LastField.

Ltac field_step :=
  let p := fresh "p" in let d := fresh "d" in let p1 := fresh "p1" in
  let H := fresh "H" in
  intros p d p1 H; rewrite run_DefineOperator_param in H;
  cbv beta; unfold merge_key, is_kind;
  destruct (param_kind_of (defname d)); cbn in H |- *;
  repeat match type of H with
  | context [match ?x with inl _ => _ | inr _ => _ end] =>
      let E := fresh "E" in destruct x eqn:E
  | context [if ?b then _ else _] =>
      let E := fresh "E" in destruct b eqn:E
  end;
  try discriminate H; injection H as <-; cbn; eauto.

Lemma DefineOperator_param_alias env p d s :
  is_kind PKmerge_alias (defname d) = true ->
  DefineOperator_param env p d s = (s, inr (set_canMerge p true)).
Proof.
  unfold is_kind, DefineOperator_param, param_kind_of.
  repeat match goal with
  | |- context [String.eqb (defname d) ?k] => destruct (String.eqb (defname d) k)
  end;
  intros Hk; try (vm_compute in Hk; discriminate Hk); reflexivity.
Qed.

(** Claim C10: the loop over the definition list keeps, for every field,
    the value of the last element whose key sets it, and the field's
    initial value when no element sets it; "function" and "procedure" set
    the same field, and "merges", "sort1", "sort2", "ltcmp" and "gtcmp"
    all set oprcanmerge.  The four obsolete keys set it to true without
    reading their value, so the last of them wins over an earlier
    merges=false and only a later "merges" decides otherwise. *)
Theorem DefineOperator_params_last_wins env ps p p' :
  run (DefineOperator_params env p ps) = inr p' ->
  (match last_by (is_kind PKleftarg) ps with
   | None => typeName1 p' = typeName1 p
   | Some d => exists t, defGetTypeName env d = inr t /\ setof t = false /\
                         typeName1 p' = Some t
   end) /\
  (match last_by (is_kind PKrightarg) ps with
   | None => typeName2 p' = typeName2 p
   | Some d => exists t, defGetTypeName env d = inr t /\ setof t = false /\
                         typeName2 p' = Some t
   end) /\
  (match last_by (is_kind PKfunction) ps with
   | None => functionName p' = functionName p
   | Some d => defGetQualifiedName env d = inr (functionName p')
   end) /\
  (match last_by (is_kind PKcommutator) ps with
   | None => commutatorName p' = commutatorName p
   | Some d => defGetQualifiedName env d = inr (commutatorName p')
   end) /\
  (match last_by (is_kind PKnegator) ps with
   | None => negatorName p' = negatorName p
   | Some d => defGetQualifiedName env d = inr (negatorName p')
   end) /\
  (match last_by (is_kind PKrestrict) ps with
   | None => restrictionName p' = restrictionName p
   | Some d => defGetQualifiedName env d = inr (restrictionName p')
   end) /\
  (match last_by (is_kind PKjoin) ps with
   | None => joinName p' = joinName p
   | Some d => defGetQualifiedName env d = inr (joinName p')
   end) /\
  (match last_by (is_kind PKhashes) ps with
   | None => canHash p' = canHash p
   | Some d => defGetBoolean env d = inr (canHash p')
   end) /\
  (match last_by merge_key ps with
   | None => canMerge p' = canMerge p
   | Some d => if is_kind PKmerges (defname d)
               then defGetBoolean env d = inr (canMerge p')
               else canMerge p' = true
   end) /\
  (forall q d s, is_kind PKmerge_alias (defname d) = true ->
   DefineOperator_param env q d s = (s, inr (set_canMerge q true))).
Proof.
  intros H.
  split; [refine (DefineOperator_params_last_field env _ _ typeName1
            (fun d v => exists t, defGetTypeName env d = inr t /\
                        setof t = false /\ v = Some t) _ ps p p' H);
          field_step|].
  split; [refine (DefineOperator_params_last_field env _ _ typeName2
            (fun d v => exists t, defGetTypeName env d = inr t /\
                        setof t = false /\ v = Some t) _ ps p p' H);
          field_step|].
  split; [refine (DefineOperator_params_last_field env _ _ functionName
            (fun d v => defGetQualifiedName env d = inr v) _ ps p p' H);
          field_step|].
  split; [refine (DefineOperator_params_last_field env _ _ commutatorName
            (fun d v => defGetQualifiedName env d = inr v) _ ps p p' H);
          field_step|].
  split; [refine (DefineOperator_params_last_field env _ _ negatorName
            (fun d v => defGetQualifiedName env d = inr v) _ ps p p' H);
          field_step|].
  split; [refine (DefineOperator_params_last_field env _ _ restrictionName
            (fun d v => defGetQualifiedName env d = inr v) _ ps p p' H);
          field_step|].
  split; [refine (DefineOperator_params_last_field env _ _ joinName
            (fun d v => defGetQualifiedName env d = inr v) _ ps p p' H);
          field_step|].
  split; [refine (DefineOperator_params_last_field env _ _ canHash
            (fun d v => defGetBoolean env d = inr v) _ ps p p' H);
          field_step|].
  split; [refine (DefineOperator_params_last_field env _ _ canMerge
            (fun d v => if is_kind PKmerges (defname d)
                        then defGetBoolean env d = inr v else v = true)
            _ ps p p' H);
          field_step|].
  intros q d s. apply DefineOperator_param_alias.
Qed.

Lemma DefineOperator_params_last_wins_witness :
  run (DefineOperator_params env0 DefineParams_init
         [mkDefElem "merges" (Some (NString "false"));
          mkDefElem "sort1" (Some (NString "false"));
          mkDefElem "function" (Some (NString "f"));
          mkDefElem "procedure" (Some (NString "int4eq"))])
  = inr (mkDefineParams true false ["int4eq"] None None [] [] [] []) /\
  canMerge (mkDefineParams true false ["int4eq"] None None [] [] [] []) = true /\
  defGetQualifiedName env0 (mkDefElem "procedure" (Some (NString "int4eq")))
  = inr (functionName (mkDefineParams true false ["int4eq"] None None [] [] [] [])).
Proof.
  assert (H : run (DefineOperator_params env0 DefineParams_init
         [mkDefElem "merges" (Some (NString "false"));
          mkDefElem "sort1" (Some (NString "false"));
          mkDefElem "function" (Some (NString "f"));
          mkDefElem "procedure" (Some (NString "int4eq"))])
    = inr (mkDefineParams true false ["int4eq"] None None [] [] [] []))
    by (vm_compute; reflexivity).
  destruct (DefineOperator_params_last_wins env0 _ _ _ H)
    as (_ & _ & Hf & _ & _ & _ & _ & _ & Hm & _).
  split; [exact H|]. split; [exact Hm|exact Hf].
Defined.

(** ** Walking through DefineOperator *)

Lemma trace_only_aclcheck_type env t : trace_only (aclcheck_type env t).
Proof. unfold aclcheck_type. solve_trace_only. Qed.
Global Hint Resolve trace_only_aclcheck_type : trace_only_db.

Lemma trace_only_typenameTypeId_opt env t :
  trace_only (typenameTypeId_opt env t).
Proof. unfold typenameTypeId_opt. solve_trace_only. Qed.
Global Hint Resolve trace_only_typenameTypeId_opt : trace_only_db.

Lemma run_typenameTypeId_opt env t :
  run (typenameTypeId_opt env t) =
  match t with
  | None => inr InvalidOid
  | Some tn => match typenameTypeId env tn with
               | inl e => inl e
               | inr x => inr (Npos x)
               end
  end.
Proof.
  destruct t as [tn|]; [|reflexivity]. unfold typenameTypeId_opt.
  rewrite run_bind by (intros; solve_trace_only). rewrite run_lift.
  destruct (typenameTypeId env tn); reflexivity.
Qed.

Lemma bind_trace_only {A B} (m : M A) (k : A -> M B) s :
  trace_only m ->
  exists evs, bind m k s =
    match run m with
    | inl e => (mkState (pg_operator s) (trace s ++ evs), inl e)
    | inr a => k a (mkState (pg_operator s) (trace s ++ evs))
    end.
Proof.
  intros Hm. destruct (Hm s) as [evs E]. exists evs.
  unfold bind. rewrite E. destruct (run m); reflexivity.
Qed.

Ltac walk_step :=
  match goal with
  | |- context [bind ?m ?k ?s] =>
      let evs := fresh "evs" in let E := fresh "E" in
      destruct (bind_trace_only m k s ltac:(solve_trace_only)) as [evs E];
      rewrite E; clear E
  end.

Ltac walk_reduce :=
  cbn [negb andb orb]; rewrite ?run_ret, ?run_raise, ?run_lift;
  cbv beta iota zeta.

(** Claim C4 (amended): once the namespace check passes, the definition
    list is read without error and names a function, a list with neither
    operand type fails with "operator argument types must be specified",
    and a list whose left type resolves and that has no right type fails
    with "operator right argument type must be specified" and the detail
    "Postfix operators are not supported."; both carry
    ERRCODE_INVALID_FUNCTION_DEFINITION. *)
Theorem DefineOperator_missing_types env create names ps s ns n p :
  QualifiedNameGetCreationNamespace env names = inr (ns, n) ->
  acl_ok (pg_namespace_aclcheck_create env ns) = true ->
  run (DefineOperator_params env DefineParams_init ps) = inr p ->
  nonnil (functionName p) = true ->
  (typeName1 p = None -> typeName2 p = None ->
   (DefineOperator env create names ps s).2 = inl types_error) /\
  (forall t1 x1, typeName1 p = Some t1 -> typenameTypeId env t1 = inr x1 ->
   typeName2 p = None ->
   (DefineOperator env create names ps s).2 = inl postfix_error) /\
  types_error <> postfix_error.
Proof.
  intros HQ Hacl Hp Hf. split; [|split]; [intros H1 H2 | intros t1 x1 H1 Ht H2 | discriminate].
  - unfold DefineOperator.
    walk_step. rewrite run_lift, HQ. walk_reduce.
    walk_step. rewrite Hacl. walk_reduce.
    walk_step. rewrite Hp. walk_reduce.
    walk_step. rewrite Hf. walk_reduce.
    walk_step. rewrite run_typenameTypeId_opt, H1. walk_reduce.
    walk_step. rewrite run_typenameTypeId_opt, H2. walk_reduce.
    walk_step. reflexivity.
  - unfold DefineOperator.
    walk_step. rewrite run_lift, HQ. walk_reduce.
    walk_step. rewrite Hacl. walk_reduce.
    walk_step. rewrite Hp. walk_reduce.
    walk_step. rewrite Hf. walk_reduce.
    walk_step. rewrite run_typenameTypeId_opt, H1, Ht. walk_reduce.
    walk_step. rewrite run_typenameTypeId_opt, H2. walk_reduce.
    walk_step. walk_reduce.
    walk_step. reflexivity.
Qed.

(** Claim C4 (as stated): a definition list in which neither operand type
    resolves fails with the message "operator argument types must be
    specified".  The function check comes first, and a type name that does
    not exist fails in typenameTypeId. *)
Lemma C4_other_errors_first :
  (DefineOperator env0 sample_OperatorCreate ["==="] [] empty_state).2
  = inl (Ereport ERRCODE_INVALID_FUNCTION_DEFINITION
           "operator function must be specified" [] None) /\
  (DefineOperator env0 sample_OperatorCreate ["==="]
     [mkDefElem "function" (Some (NString "int4eq"));
      mkDefElem "leftarg" (Some (NString "nosuchtype"));
      mkDefElem "rightarg" (Some (NString "nosuchtype"))] empty_state).2
  = inl (ExtError ERRCODE_UNDEFINED_OBJECT "type does not exist").
Proof. vm_compute. split; reflexivity. Qed.

Lemma DefineOperator_missing_types_witness :
  (DefineOperator env0 sample_OperatorCreate ["==="]
     [mkDefElem "function" (Some (NString "int4eq"))] empty_state).2
  = inl types_error /\
  (DefineOperator env0 sample_OperatorCreate ["==="]
     [mkDefElem "function" (Some (NString "f"));
      mkDefElem "leftarg" (Some (NString "int4"))] empty_state).2
  = inl postfix_error.
Proof.
  split.
  - refine (proj1 (DefineOperator_missing_types env0 sample_OperatorCreate
              ["==="] [mkDefElem "function" (Some (NString "int4eq"))]
              empty_state 2200 "===" (mkDefineParams false false ["int4eq"]
                                        None None [] [] [] [])
              eq_refl eq_refl _ eq_refl) eq_refl eq_refl).
    vm_compute. reflexivity.
  - refine (proj1 (proj2 (DefineOperator_missing_types env0 sample_OperatorCreate
              ["==="] [mkDefElem "function" (Some (NString "f"));
                       mkDefElem "leftarg" (Some (NString "int4"))]
              empty_state 2200 "===" (mkDefineParams false false ["f"]
                 (Some (mkTypeName ["int4"] false)) None [] [] [] [])
              eq_refl eq_refl _ eq_refl)) (mkTypeName ["int4"] false) 23%positive
              eq_refl _ eq_refl).
    + vm_compute. reflexivity.
    + vm_compute. reflexivity.
Defined.

(** ** The lookup of the operator function *)

Lemma first_lookup_quiet pre evs :
  Forall no_lookup pre -> first_lookup (pre ++ evs) = first_lookup evs.
Proof.
  induction 1 as [|ev pre Hev Hpre IH]; [reflexivity|].
  destruct ev; simpl in *; try contradiction; exact IH.
Qed.

Lemma quiet_ret {A} (a : A) : quiet (ret a).
Proof. intros s. exists []. split; [constructor|]. rewrite app_nil_r. destruct s; reflexivity. Qed.
Lemma quiet_raise {A} (e : err) : quiet (A:=A) (raise e).
Proof. intros s. exists []. split; [constructor|]. rewrite app_nil_r. destruct s; reflexivity. Qed.
Lemma quiet_lift {A} (r : err + A) : quiet (lift r).
Proof. intros s. exists []. split; [constructor|]. rewrite app_nil_r. destruct s; reflexivity. Qed.
Lemma quiet_ereport {A} c f a : quiet (A:=A) (ereport c f a).
Proof. apply quiet_raise. Qed.
Lemma quiet_emit ev : no_lookup ev -> quiet (emit ev).
Proof. intros H s. exists [ev]. split; [repeat constructor; exact H|reflexivity]. Qed.

Lemma quiet_trace_only {A} (m : M A) : quiet m -> trace_only m.
Proof. intros H s. destruct (H s) as [evs [_ E]]. exists evs. exact E. Qed.

Lemma quiet_bind {A B} (m : M A) (k : A -> M B) :
  quiet m -> (forall a, quiet (k a)) -> quiet (bind m k).
Proof.
  intros Hm Hk s.
  assert (Ht : trace_only m) by (apply quiet_trace_only; exact Hm).
  assert (Hkt : forall a, trace_only (k a)) by (intros; apply quiet_trace_only; apply Hk).
  rewrite (run_bind m k Ht Hkt). unfold bind.
  destruct (Hm s) as [e1 [F1 ->]].
  destruct (run m) as [e|a]; [exists e1; split; [exact F1|reflexivity]|].
  destruct (Hk a (mkState (pg_operator s) (trace s ++ e1))) as [e2 [F2 ->]].
  exists (e1 ++ e2). split; [apply Forall_app; split; assumption|].
  cbn [pg_operator trace]. rewrite app_assoc. reflexivity.
Qed.

Ltac quiet_step :=
  match goal with
  | |- quiet (bind _ _) => apply quiet_bind; [|intros ?]
  | |- quiet (ret _) => apply quiet_ret
  | |- quiet (raise _) => apply quiet_raise
  | |- quiet (lift _) => apply quiet_lift
  | |- quiet (ereport _ _ _) => apply quiet_ereport
  | |- quiet (emit _) => apply quiet_emit; exact I
  | |- quiet (if ?b then _ else _) => destruct b
  | |- quiet (match ?x with _ => _ end) => destruct x
  end.

Create HintDb quiet_db.
Ltac solve_quiet := repeat (quiet_step || (progress auto with quiet_db)).

Lemma quiet_DefineOperator_param env p d : quiet (DefineOperator_param env p d).
Proof. unfold DefineOperator_param. solve_quiet. Qed.
Global Hint Resolve quiet_DefineOperator_param : quiet_db.

Lemma quiet_DefineOperator_params env ps :
  forall p, quiet (DefineOperator_params env p ps).
Proof. induction ps as [|d ps IH]; intros p; simpl; solve_quiet. Qed.
Global Hint Resolve quiet_DefineOperator_params : quiet_db.

Lemma quiet_typenameTypeId_opt env t : quiet (typenameTypeId_opt env t).
Proof. unfold typenameTypeId_opt. solve_quiet. Qed.
Global Hint Resolve quiet_typenameTypeId_opt : quiet_db.

Lemma quiet_aclcheck_type env t : quiet (aclcheck_type env t).
Proof. unfold aclcheck_type. solve_quiet. Qed.
Global Hint Resolve quiet_aclcheck_type : quiet_db.

Lemma extends_trace_only {A} (m : M A) : trace_only m -> extends_trace m.
Proof. intros H s. destruct (H s) as [evs ->]. exists evs. reflexivity. Qed.

Lemma extends_bind {A B} (m : M A) (k : A -> M B) :
  extends_trace m -> (forall a, extends_trace (k a)) -> extends_trace (bind m k).
Proof.
  intros Hm Hk s. unfold bind.
  destruct (Hm s) as [e1 E1]. destruct (m s) as [s1 [e|a]]; cbn in E1.
  - exists e1. exact E1.
  - destruct (Hk a s1) as [e2 E2]. exists (e1 ++ e2).
    rewrite E2, E1, app_assoc. reflexivity.
Qed.

Lemma extends_OperatorCreate create a b c d e f g h i j k :
  extends_trace (OperatorCreate create a b c d e f g h i j k).
Proof.
  intros s. exists []. rewrite app_nil_r. unfold OperatorCreate.
  destruct (create a b c d e f g h i j k (pg_operator s)) as [er|[o rows]];
    reflexivity.
Qed.

Ltac extends_step :=
  match goal with
  | |- extends_trace (bind _ _) => apply extends_bind; [|intros ?]
  | |- extends_trace (OperatorCreate _ _ _ _ _ _ _ _ _ _ _ _) =>
      apply extends_OperatorCreate
  | |- extends_trace (if ?b then _ else _) => destruct b
  | |- extends_trace _ => apply extends_trace_only; solve [solve_trace_only]
  end.

Lemma quiet_bind_spec {A B} P (m : M A) (k : A -> M B) s :
  quiet m ->
  (forall a s', run m = inr a -> first_lookup_spec P s' (k a s')) ->
  first_lookup_spec P s (bind m k s).
Proof.
  intros Hm Hk. unfold bind.
  destruct (Hm s) as [e1 [F1 ->]].
  destruct (run m) as [e|a] eqn:Hr.
  - exists e1. split; [reflexivity|].
    rewrite <- (app_nil_r e1), first_lookup_quiet by exact F1.
    exists e. reflexivity.
  - destruct (Hk a (mkState (pg_operator s) (trace s ++ e1)) eq_refl)
      as [e2 [E2 Hs]].
    exists (e1 ++ e2). split.
    + rewrite E2. cbn [trace]. rewrite app_assoc. reflexivity.
    + rewrite first_lookup_quiet by exact F1. exact Hs.
Qed.

Lemma lookup_bind_spec {B} P env fn n tys (k : Oid -> M B) s :
  P (EvLookupFuncName fn n (firstn n tys) false) ->
  (forall a, extends_trace (k a)) ->
  first_lookup_spec P s (bind (LookupFuncName env fn n tys false) k s).
Proof.
  intros HP Hk. unfold bind, LookupFuncName, emit. cbn.
  destruct (func_lookup env fn (firstn n tys)) as [f|];
    unfold ret, raise; cbn.
  - destruct (Hk (Npos f) (mkState (pg_operator s)
                (trace s ++ [EvLookupFuncName fn n (firstn n tys) false])))
      as [e2 E2].
    exists ([EvLookupFuncName fn n (firstn n tys) false] ++ e2).
    split; [rewrite E2, app_assoc; reflexivity|exact HP].
  - exists [EvLookupFuncName fn n (firstn n tys) false].
    split; [reflexivity|exact HP].
Qed.

Lemma typenameTypeId_opt_valid env t o :
  run (typenameTypeId_opt env t) = inr o -> OidIsValid o = true ->
  exists tn x, t = Some tn /\ typenameTypeId env tn = inr x /\ o = Npos x.
Proof.
  rewrite run_typenameTypeId_opt. intros H V.
  destruct t as [tn|]; [|injection H as <-; cbv in V; discriminate].
  destruct (typenameTypeId env tn) as [e|x] eqn:E; [discriminate|].
  injection H as <-. exists tn, x. repeat split. exact E.
Qed.

Lemma typenameTypeId_opt_invalid env t o :
  run (typenameTypeId_opt env t) = inr o -> OidIsValid o = false ->
  t = None /\ o = InvalidOid.
Proof.
  rewrite run_typenameTypeId_opt. intros H V.
  destruct t as [tn|]; [|injection H as <-; auto].
  destruct (typenameTypeId env tn) as [e|x]; [discriminate|].
  injection H as <-. cbv in V; discriminate.
Qed.

Ltac extends_walk :=
  repeat (cbv beta zeta; extends_step).

(** C8: whenever DefineOperator calls LookupFuncName for the operator
    function, the operand types have passed its checks and the call is
    made with as many argument types as there are operand types: with
    arity 1 and the right operand type alone when there is no left
    operand type, with arity 2 and (left, right) when there are both; a
    run that calls no LookupFuncName ends in an error. *)
Theorem DefineOperator_function_arity env create names ps s :
  first_lookup_spec
    (fun ev => exists p,
       run (DefineOperator_params env DefineParams_init ps) = inr p /\
       ((typeName1 p = None /\
         exists t2 x2, typeName2 p = Some t2 /\ typenameTypeId env t2 = inr x2 /\
           ev = EvLookupFuncName (functionName p) 1 [Npos x2] false) \/
        (exists t1 x1 t2 x2, typeName1 p = Some t1 /\
           typenameTypeId env t1 = inr x1 /\
           typeName2 p = Some t2 /\ typenameTypeId env t2 = inr x2 /\
           ev = EvLookupFuncName (functionName p) 2 [Npos x1; Npos x2] false)))
    s (DefineOperator env create names ps s).
Proof.
  unfold DefineOperator.
  apply quiet_bind_spec; [solve_quiet|intros [ns n] s1 _; cbv beta iota zeta].
  apply quiet_bind_spec; [solve_quiet|intros [] s2 _].
  apply quiet_bind_spec; [solve_quiet|intros p s3 Hp].
  apply quiet_bind_spec; [solve_quiet|intros [] s4 _].
  apply quiet_bind_spec; [solve_quiet|intros t1 s5 H1].
  apply quiet_bind_spec; [solve_quiet|intros t2 s6 H2].
  apply quiet_bind_spec; [solve_quiet|intros [] s7 _].
  apply quiet_bind_spec; [solve_quiet|intros [] s8 H4].
  apply quiet_bind_spec; [solve_quiet|intros [] s9 _].
  apply quiet_bind_spec; [solve_quiet|intros [] s10 _].
  destruct (OidIsValid t2) eqn:V2;
    [|cbn [negb] in H4; rewrite run_raise in H4; discriminate].
  destruct (typenameTypeId_opt_valid env _ _ H2 V2) as [tn2 [x2 [T2 [X2 ->]]]].
  destruct (OidIsValid t1) eqn:V1; cbn [negb]; cbv beta iota zeta.
  - destruct (typenameTypeId_opt_valid env _ _ H1 V1)
      as [tn1 [x1 [T1 [X1 ->]]]].
    apply lookup_bind_spec; [|intros ?; extends_walk].
    exists p. split; [exact Hp|]. right.
    exists tn1, x1, tn2, x2. repeat split; assumption.
  - destruct (typenameTypeId_opt_invalid env _ _ H1 V1) as [T1 ->].
    apply lookup_bind_spec; [|intros ?; extends_walk].
    exists p. split; [exact Hp|]. left. split; [exact T1|].
    exists tn2, x2. repeat split; assumption.
Qed.

(** ** Unrecognized attributes *)

Lemma equiv_bind {A B} (m1 m2 : M A) (k1 k2 : A -> M B) :
  equiv m1 m2 -> (forall a, equiv (k1 a) (k2 a)) ->
  equiv (bind m1 k1) (bind m2 k2).
Proof.
  intros Hm Hk s1 s2 H. specialize (Hm s1 s2 H). unfold bind.
  destruct (m1 s1) as [t1 r1], (m2 s2) as [t2 r2]. cbn in Hm.
  destruct Hm as [Hp <-]. destruct r1 as [e|a]; [auto|].
  apply Hk. exact Hp.
Qed.

Lemma equiv_trace_only {A} (m1 m2 : M A) :
  trace_only m1 -> trace_only m2 -> run m1 = run m2 -> equiv m1 m2.
Proof.
  intros H1 H2 Hr s1 s2 H.
  destruct (H1 s1) as [e1 ->]. destruct (H2 s2) as [e2 ->]. cbn. auto.
Qed.

Lemma equiv_OperatorCreate create a b c d e f g h i j k :
  equiv (OperatorCreate create a b c d e f g h i j k)
        (OperatorCreate create a b c d e f g h i j k).
Proof.
  intros s1 s2 H. unfold OperatorCreate. rewrite H.
  destruct (create a b c d e f g h i j k (pg_operator s2)) as [er|[o rows]];
    cbn; auto.
Qed.

Ltac equiv_step :=
  match goal with
  | x : (_ * _)%type |- _ => destruct x
  | |- equiv (OperatorCreate _ _ _ _ _ _ _ _ _ _ _ _) _ => apply equiv_OperatorCreate
  | |- equiv ?m ?m =>
      apply equiv_trace_only;
        [solve [solve_trace_only]|solve [solve_trace_only]|reflexivity]
  | |- equiv (bind _ _) (bind _ _) => apply equiv_bind; [|intros ?]
  | |- equiv (if ?b then _ else _) _ => destruct b
  | |- context [OidIsValid ?o] => destruct (OidIsValid o)
  end.

Lemma DefineOperator_params_known env ps :
  forall p, run (DefineOperator_params env p ps) =
            run (DefineOperator_params env p (known_params ps)).
Proof.
  induction ps as [|d ps IH]; intros p; [reflexivity|].
  unfold known_params. cbn [List.filter].
  destruct (define_key (defname d)) eqn:Hk.
  - rewrite !run_DefineOperator_params_cons.
    destruct (run (DefineOperator_param env p d)); [reflexivity|apply IH].
  - rewrite run_DefineOperator_params_cons, run_DefineOperator_param.
    unfold define_key, is_kind in Hk.
    destruct (param_kind_of (defname d)); try discriminate Hk. apply IH.
Qed.

Lemma AlterOperator_modify_unknown env oprId f opts d :
  In d opts -> define_key (defname d) = false ->
  exists e, run (AlterOperator_modify env oprId f opts) = inl e.
Proof.
  intros Hin Hk. rewrite run_AlterOperator_modify.
  destruct (run (AlterOperator_options env AlterOptions_init opts))
    as [e|a] eqn:Ho; [eauto|].
  apply AlterOperator_options_keys in Ho.
  rewrite List.Forall_forall in Ho. destruct (Ho d Hin) as [E|E];
    rewrite E in Hk; discriminate Hk.
Qed.

Lemma AlterOperator_modify_fails env stmt m tr :
  (forall oprId f, exists e,
     run (AlterOperator_modify env oprId f (options stmt)) = inl e) ->
  exists e tr', AlterOperator env stmt (mkState m tr) = (mkState m tr', inl e).
Proof.
  intros Hf. unfold AlterOperator, lift at 1, bind at 1.
  destruct (LookupOperWithArgs env (opername stmt)) as [e|oprId]; [eauto|].
  rewrite (bind_ok _ _ _ _ _ (SearchSysCache1_run m tr oprId)).
  destruct (m !! oprId) as [tup|]; [|eauto].
  destruct (Hf oprId (t_data tup)) as [e He].
  destruct (trace_only_AlterOperator_modify env oprId (t_data tup)
              (options stmt) (mkState m (tr ++ [EvSearchSysCache oprId])))
    as [evs E].
  rewrite He in E. rewrite (bind_err _ _ _ _ _ E). eauto.
Qed.

(** C5: an attribute whose key CREATE OPERATOR does not know draws a
    warning (SQLSTATE 42601, "operator attribute %s not recognized") and
    leaves the parameters as they were; DefineOperator then ends with the
    same rows and the same result as on the list without the unknown
    attributes.  In ALTER OPERATOR the same key is an error: the command
    fails and leaves the rows unchanged. *)
Theorem unrecognized_attribute_warning_vs_error env create names ps stmt d p s :
  define_key (defname d) = false ->
  In d (options stmt) ->
  DefineOperator_param env p d s =
    (mkState (pg_operator s)
       (trace s ++ [EvWarning ERRCODE_SYNTAX_ERROR
                      "operator attribute %s not recognized" [defname d]]),
     inr p) /\
  pg_operator (DefineOperator env create names ps s).1 =
    pg_operator (DefineOperator env create names (known_params ps) s).1 /\
  (DefineOperator env create names ps s).2 =
    (DefineOperator env create names (known_params ps) s).2 /\
  (exists e, (AlterOperator env stmt s).2 = inl e) /\
  pg_operator (AlterOperator env stmt s).1 = pg_operator s.
Proof.
  intros Hk Hin.
  assert (Heq : equiv (DefineOperator env create names ps)
                      (DefineOperator env create names (known_params ps))).
  { unfold DefineOperator.
    repeat (cbn [negb andb orb]; cbv beta iota zeta; equiv_step).
    apply equiv_trace_only; [solve_trace_only|solve_trace_only|].
    apply DefineOperator_params_known. }
  split; [|split; [|split]].
  - unfold DefineOperator_param, define_key, is_kind, param_kind_of in *.
    repeat match goal with
    | H : context [if String.eqb ?a ?b then _ else _] |- _ =>
        destruct (String.eqb a b); [discriminate H|]
    end.
    reflexivity.
  - apply Heq. reflexivity.
  - apply Heq. reflexivity.
  - destruct s as [m tr].
    destruct (AlterOperator_modify_fails env stmt m tr) as [e [tr' ->]].
    + intros oprId f. exact (AlterOperator_modify_unknown env oprId f _ d Hin Hk).
    + split; [eauto|reflexivity].
Qed.

Lemma unrecognized_attribute_warning_vs_error_witness :
  (DefineOperator env0 sample_OperatorCreate ["==="]
     [mkDefElem "function" (Some (NString "int4eq"));
      mkDefElem "foo" (Some (NString "x"));
      mkDefElem "leftarg" (Some (NString "int4"));
      mkDefElem "rightarg" (Some (NString "int4"))] sample_state).2 = inr 700 /\
  (exists e, (AlterOperator env0
     (mkAlterOperatorStmt (opname "=") [mkDefElem "foo" (Some (NString "x"))])
     sample_state).2 = inl e).
Proof.
  destruct (unrecognized_attribute_warning_vs_error env0 sample_OperatorCreate
              ["==="]
              [mkDefElem "function" (Some (NString "int4eq"));
               mkDefElem "foo" (Some (NString "x"));
               mkDefElem "leftarg" (Some (NString "int4"));
               mkDefElem "rightarg" (Some (NString "int4"))]
              (mkAlterOperatorStmt (opname "=")
                 [mkDefElem "foo" (Some (NString "x"))])
              (mkDefElem "foo" (Some (NString "x")))
              DefineParams_init sample_state eq_refl (or_introl eq_refl))
    as (_ & _ & Hr & Ha & _).
  split; [|exact Ha].
  rewrite Hr. vm_compute. reflexivity.
Defined.

Lemma RemoveOperatorById_unlinks_then_deletes_witness :
  (RemoveOperatorById (fun _ _ _ _ => ret tt) 7 sample_state).2
    = inl (lookup_failed 7) /\
  exists s', RemoveOperatorById OperatorUpd_model 96 sample_state = (s', inr tt) /\
             pg_operator s' !! 96 = None.
Proof.
  destruct (RemoveOperatorById_unlinks_then_deletes 96 sample_state)
    as [_ [_ H3]].
  destruct (RemoveOperatorById_unlinks_then_deletes 7 sample_state)
    as [H1 _].
  split; [apply H1; reflexivity|].
  destruct (H3 (mkHeapTuple (96, 0) form_eq) sample_catalog_wf eq_refl eq_refl)
    as (s' & inner & tid & E & Hgone & _).
  exists s'. split; assumption.
Defined.

(** ** Further properties of the code *)

Lemma lookups_only_ret {A} (a : A) : lookups_only (ret a).
Proof. intros s. exists []. split; [constructor|]. rewrite app_nil_r. destruct s; reflexivity. Qed.
Lemma lookups_only_raise {A} (e : err) : lookups_only (A:=A) (raise e).
Proof. intros s. exists []. split; [constructor|]. rewrite app_nil_r. destruct s; reflexivity. Qed.
Lemma lookups_only_lift {A} (r : err + A) : lookups_only (lift r).
Proof. intros s. exists []. split; [constructor|]. rewrite app_nil_r. destruct s; reflexivity. Qed.
Lemma lookups_only_ereport {A} c f a : lookups_only (A:=A) (ereport c f a).
Proof. apply lookups_only_raise. Qed.
Lemma lookups_only_emit_lookup n k tys mo :
  lookups_only (emit (EvLookupFuncName n k tys mo)).
Proof.
  intros s. exists [EvLookupFuncName n k tys mo].
  split; [apply List.Forall_cons; [exact I|constructor]|reflexivity].
Qed.

Lemma lookups_only_trace_only {A} (m : M A) : lookups_only m -> trace_only m.
Proof. intros H s. destruct (H s) as [evs [_ E]]. exists evs. exact E. Qed.

Lemma lookups_only_bind {A B} (m : M A) (k : A -> M B) :
  lookups_only m -> (forall a, lookups_only (k a)) -> lookups_only (bind m k).
Proof.
  intros Hm Hk s.
  rewrite (run_bind m k (lookups_only_trace_only m Hm)
             (fun a => lookups_only_trace_only _ (Hk a))).
  unfold bind. destruct (Hm s) as [e1 [F1 ->]].
  destruct (run m) as [e|a]; [exists e1; split; [exact F1|reflexivity]|].
  destruct (Hk a (mkState (pg_operator s) (trace s ++ e1))) as [e2 [F2 ->]].
  exists (e1 ++ e2). split; [apply Forall_app; split; assumption|].
  cbn [pg_operator trace]. rewrite app_assoc. reflexivity.
Qed.

Create HintDb lookups_db.
Ltac lookups_step :=
  match goal with
  | |- lookups_only (bind _ _) => apply lookups_only_bind; [|intros ?]
  | |- lookups_only (ret _) => apply lookups_only_ret
  | |- lookups_only (raise _) => apply lookups_only_raise
  | |- lookups_only (lift _) => apply lookups_only_lift
  | |- lookups_only (ereport _ _ _) => apply lookups_only_ereport
  | |- lookups_only (emit (EvLookupFuncName _ _ _ _)) => apply lookups_only_emit_lookup
  | |- lookups_only (if ?b then _ else _) => destruct b
  | |- lookups_only (match ?x with _ => _ end) => destruct x
  end.
Ltac solve_lookups :=
  repeat (cbv beta zeta; (lookups_step || (progress auto with lookups_db))).

Lemma lookups_only_LookupFuncName env n k tys mo :
  lookups_only (LookupFuncName env n k tys mo).
Proof. unfold LookupFuncName. solve_lookups. Qed.
Global Hint Resolve lookups_only_LookupFuncName : lookups_db.
Lemma lookups_only_ValidateRestrictionEstimator env n :
  lookups_only (ValidateRestrictionEstimator env n).
Proof. unfold ValidateRestrictionEstimator. solve_lookups. Qed.
Global Hint Resolve lookups_only_ValidateRestrictionEstimator : lookups_db.
Lemma lookups_only_ValidateJoinEstimator env n :
  lookups_only (ValidateJoinEstimator env n).
Proof. unfold ValidateJoinEstimator. solve_lookups. Qed.
Global Hint Resolve lookups_only_ValidateJoinEstimator : lookups_db.
Lemma lookups_only_AlterOperator_option env a d :
  lookups_only (AlterOperator_option env a d).
Proof. unfold AlterOperator_option. solve_lookups. Qed.
Global Hint Resolve lookups_only_AlterOperator_option : lookups_db.
Lemma lookups_only_AlterOperator_options env opts :
  forall a, lookups_only (AlterOperator_options env a opts).
Proof. induction opts as [|d r IH]; intros a; simpl; solve_lookups. Qed.
Global Hint Resolve lookups_only_AlterOperator_options : lookups_db.
Lemma lookups_only_AlterOperator_modify env oprId f opts :
  lookups_only (AlterOperator_modify env oprId f opts).
Proof. unfold AlterOperator_modify. solve_lookups. Qed.
Global Hint Resolve lookups_only_AlterOperator_modify : lookups_db.

(** The option loop of AlterOperator neither reads nor writes the state. *)
Lemma AlterOperator_option_state env a d s :
  AlterOperator_option env a d s = (s, run (AlterOperator_option env a d)).
Proof.
  unfold AlterOperator_option, run, bind, lift, ret, ereport, raise.
  destruct (arg d); [destruct (defGetQualifiedName env d)|];
    repeat match goal with |- context [if ?b then _ else _] => destruct b end;
    reflexivity.
Qed.

Lemma AlterOperator_options_state env opts :
  forall a s, AlterOperator_options env a opts s =
              (s, run (AlterOperator_options env a opts)).
Proof.
  induction opts as [|d r IH]; intros a s; [reflexivity|].
  rewrite run_AlterOperator_options_cons. simpl. unfold bind.
  rewrite AlterOperator_option_state.
  destruct (run (AlterOperator_option env a d)); [reflexivity|]. apply IH.
Qed.

(** RemoveOperatorById on an operator with neither commutator nor
    negator: the row is fetched and that version deleted; OperatorUpd is
    not called, so the statement holds whatever it does, and every other
    row is kept. *)
Theorem RemoveOperatorById_unlinked upd operOid m tr tup :
  tids_wf m -> m !! operOid = Some tup ->
  OidIsValid (oprcom (t_data tup)) = false ->
  OidIsValid (oprnegate (t_data tup)) = false ->
  RemoveOperatorById upd operOid (mkState m tr) =
  (mkState (delete operOid m)
     (tr ++ [EvSearchSysCache operOid; EvTupleDelete (t_self tup)]),
   inr tt).
Proof.
  intros Hwf Ht Hc Hn. unfold RemoveOperatorById.
  rewrite (bind_ok _ _ _ _ _ (SearchSysCache1_run m tr operOid)), Ht.
  cbv beta iota zeta. rewrite Hc, Hn. cbn [orb].
  rewrite (bind_ok _ _ _ _ tup) by reflexivity.
  rewrite (CatalogTupleDelete_current _ _ _ _ Hwf Ht).
  rewrite <- app_assoc. reflexivity.
Qed.

Lemma RemoveOperatorById_unlinked_witness :
  RemoveOperatorById (fun _ _ _ _ => raise (Elog "unexpected" 0)) 500
    sample_state =
  (mkState (delete 500 sample_catalog)
     [EvSearchSysCache 500; EvTupleDelete (500, 0)], inr tt).
Proof.
  exact (RemoveOperatorById_unlinked _ 500 sample_catalog []
           (mkHeapTuple (500, 0) form_at) sample_catalog_wf eq_refl
           eq_refl eq_refl).
Defined.

Lemma run_ValidateRestrictionEstimator_checks env n :
  run (ValidateRestrictionEstimator env n) =
  match func_lookup env n RESTSEL_ARGS with
  | None => inl (FuncNotFound n RESTSEL_ARGS)
  | Some f => estimator_checks env
      "restriction estimator function %s must return type %s" n f
  end.
Proof.
  unfold run, ValidateRestrictionEstimator, LookupFuncName, estimator_checks,
    RESTSEL_ARGS.
  run_m. destruct (func_lookup env n _) as [f|]; [|reflexivity].
  simpl. destruct (get_func_rettype env (N.pos f) =? FLOAT8OID); simpl;
    [destruct (pg_proc_aclcheck_execute env (N.pos f))|]; reflexivity.
Qed.

Lemma run_ValidateJoinEstimator_checks env n :
  run (ValidateJoinEstimator env n) =
  match func_lookup env n JOINSEL_ARGS,
        func_lookup env n (firstn 4 JOINSEL_ARGS) with
  | Some _, Some _ => inl (join_ambiguous n)
  | None, None => inl (FuncNotFound n JOINSEL_ARGS)
  | Some f, None | None, Some f => estimator_checks env
      "join estimator function %s must return type %s" n f
  end.
Proof.
  unfold run, ValidateJoinEstimator, LookupFuncName, estimator_checks,
    join_ambiguous, JOINSEL_ARGS.
  run_m.
  destruct (func_lookup env n [INTERNALOID; OIDOID; INTERNALOID; INT2OID; INTERNALOID])
    as [f5|];
  destruct (func_lookup env n [INTERNALOID; OIDOID; INTERNALOID; INT2OID])
    as [f4|]; simpl; try reflexivity;
  repeat match goal with
  | |- context [get_func_rettype env ?f =? FLOAT8OID] =>
      destruct (get_func_rettype env f =? FLOAT8OID); simpl
  | |- context [pg_proc_aclcheck_execute env ?f] =>
      destruct (pg_proc_aclcheck_execute env f); simpl
  end; reflexivity.
Qed.

Lemma estimator_checks_ok env msg n f r :
  estimator_checks env msg n f = inr r ->
  r = Npos f /\ get_func_rettype env r = FLOAT8OID /\
  acl_ok (pg_proc_aclcheck_execute env r) = true.
Proof.
  unfold estimator_checks.
  destruct (get_func_rettype env (N.pos f) =? FLOAT8OID) eqn:E; [|discriminate].
  destruct (acl_ok (pg_proc_aclcheck_execute env (N.pos f))) eqn:A;
    [|discriminate].
  intros H; injection H as <-. apply N.eqb_eq in E. auto.
Qed.

Lemma ValidateRestrictionEstimator_ok env n r :
  run (ValidateRestrictionEstimator env n) = inr r ->
  get_func_rettype env r = FLOAT8OID /\
  acl_ok (pg_proc_aclcheck_execute env r) = true.
Proof.
  rewrite run_ValidateRestrictionEstimator_checks.
  destruct (func_lookup env n RESTSEL_ARGS); [|discriminate].
  intros H. apply estimator_checks_ok in H. tauto.
Qed.

Lemma ValidateJoinEstimator_ok env n j :
  run (ValidateJoinEstimator env n) = inr j ->
  get_func_rettype env j = FLOAT8OID /\
  acl_ok (pg_proc_aclcheck_execute env j) = true.
Proof.
  rewrite run_ValidateJoinEstimator_checks.
  destruct (func_lookup env n JOINSEL_ARGS), (func_lookup env n (firstn 4 JOINSEL_ARGS));
    try discriminate; intros H; apply estimator_checks_ok in H; tauto.
Qed.

Lemma Forall_lookup_read evs : Forall is_lookup evs -> Forall catalog_read evs.
Proof. intros H. eapply List.Forall_impl; [|exact H]. intros []; simpl; tauto. Qed.

Lemma AlterOperator_modify_owner env oprId f opts f' :
  run (AlterOperator_modify env oprId f opts) = inr f' ->
  pg_oper_ownercheck env oprId = true.
Proof.
  rewrite run_AlterOperator_modify.
  destruct (run (AlterOperator_options env AlterOptions_init opts)); [discriminate|].
  destruct (pg_oper_ownercheck env oprId); [reflexivity|discriminate].
Qed.

(** A failed ALTER OPERATOR only read the catalog: the rows are unchanged
    and the calls it made are syscache fetches and function lookups, with
    no row update, no dependency recording and no post-alter hook. *)
Theorem AlterOperator_failure_reads_only env stmt m tr s' e :
  tids_wf m ->
  AlterOperator env stmt (mkState m tr) = (s', inl e) ->
  pg_operator s' = m /\
  exists evs, trace s' = tr ++ evs /\ Forall catalog_read evs.
Proof.
  intros Hwf H. unfold AlterOperator, lift at 1, bind at 1 in H.
  destruct (LookupOperWithArgs env (opername stmt)) as [e0|oprId].
  { injection H as <- _. split; [reflexivity|].
    exists []. rewrite app_nil_r. split; [reflexivity|constructor]. }
  rewrite (bind_ok _ _ _ _ _ (SearchSysCache1_run m tr oprId)) in H.
  assert (HS : Forall catalog_read [EvSearchSysCache oprId])
    by (apply List.Forall_cons; [exact I|constructor]).
  destruct (m !! oprId) as [tup|] eqn:Ht.
  2:{ injection H as <- _. split; [reflexivity|]. eauto. }
  destruct (lookups_only_AlterOperator_modify env oprId (t_data tup)
              (options stmt) (mkState m (tr ++ [EvSearchSysCache oprId])))
    as [evs [F E]].
  destruct (run (AlterOperator_modify env oprId (t_data tup) (options stmt)))
    as [e1|f] eqn:Hr.
  - rewrite (bind_err _ _ _ _ _ E) in H. injection H as <- _.
    split; [reflexivity|]. exists ([EvSearchSysCache oprId] ++ evs).
    split; [cbn [trace]; rewrite app_assoc; reflexivity|].
    apply Forall_app. split; [exact HS|apply Forall_lookup_read; exact F].
  - rewrite (bind_ok _ _ _ _ _ E) in H.
    rewrite (bind_ok _ _ _ _ _ (CatalogTupleUpdate_current _ _ _ _ _ Hwf Ht)) in H.
    unfold makeOperatorDependencies, bind, emit, ret in H. discriminate H.
Qed.

Lemma AlterOperator_failure_reads_only_witness :
  exists s' e,
    AlterOperator env0
      (mkAlterOperatorStmt (opname "@") [mkDefElem "join" (Some (NString "nosuchsel"))])
      sample_state = (s', inl e) /\
    pg_operator s' = sample_catalog /\
    exists evs, trace s' = [] ++ evs /\ Forall catalog_read evs.
Proof.
  eexists _, _. split; [vm_compute; reflexivity|].
  eapply (AlterOperator_failure_reads_only env0
           (mkAlterOperatorStmt (opname "@")
              [mkDefElem "join" (Some (NString "nosuchsel"))])
           sample_catalog []); [exact sample_catalog_wf|].
  vm_compute. reflexivity.
Defined.

(** A successful ALTER OPERATOR was run by the operator's owner; it wrote
    one new version of the operator's row (keeping its OID), then recorded
    the operator's dependencies, then called the post-alter hook, and
    returned the operator's OID; before that it only fetched the row and
    looked up functions. *)
Theorem AlterOperator_success_trace env stmt m tr s' o :
  tids_wf m ->
  AlterOperator env stmt (mkState m tr) = (s', inr o) ->
  exists oprId tup f evs,
    LookupOperWithArgs env (opername stmt) = inr oprId /\
    m !! oprId = Some tup /\
    pg_oper_ownercheck env oprId = true /\
    oid f = oid (t_data tup) /\
    pg_operator s' = <[oprId := mkHeapTuple (oprId, N.succ (t_self tup).2) f]> m /\
    o = oid (t_data tup) /\
    Forall is_lookup evs /\
    trace s' = tr ++ [EvSearchSysCache oprId] ++ evs ++
               [EvTupleUpdate (t_self tup);
                EvMakeOperatorDependencies (oid (t_data tup));
                EvPostAlterHook oprId].
Proof.
  intros Hwf H. unfold AlterOperator, lift at 1, bind at 1 in H.
  destruct (LookupOperWithArgs env (opername stmt)) as [e0|oprId];
    [discriminate H|].
  rewrite (bind_ok _ _ _ _ _ (SearchSysCache1_run m tr oprId)) in H.
  destruct (m !! oprId) as [tup|] eqn:Ht; [|discriminate H].
  destruct (lookups_only_AlterOperator_modify env oprId (t_data tup)
              (options stmt) (mkState m (tr ++ [EvSearchSysCache oprId])))
    as [evs [F E]].
  destruct (run (AlterOperator_modify env oprId (t_data tup) (options stmt)))
    as [e1|f] eqn:Hr.
  { rewrite (bind_err _ _ _ _ _ E) in H. discriminate H. }
  rewrite (bind_ok _ _ _ _ _ E) in H.
  rewrite (bind_ok _ _ _ _ _ (CatalogTupleUpdate_current _ _ _ _ _ Hwf Ht)) in H.
  unfold makeOperatorDependencies, bind, emit, ret in H.
  cbn [pg_operator trace t_data] in H. injection H as <- <-.
  assert (Hoid : oid f = oid (t_data tup)).
  { destruct (AlterOperator_modify_frame _ _ _ _ _ Hr) as [Hf _].
    rewrite Hf. reflexivity. }
  exists oprId, tup, f, evs. repeat split; try assumption.
  - eapply AlterOperator_modify_owner. exact Hr.
  - cbn. rewrite <- !app_assoc, Hoid. reflexivity.
Qed.

Lemma AlterOperator_success_trace_witness :
  exists s' o,
    AlterOperator env0
      (mkAlterOperatorStmt (opname "=") [mkDefElem "restrict" (Some (NString "eqsel"))])
      sample_state = (s', inr o) /\
    exists oprId tup f evs,
      LookupOperWithArgs env0 (opname "=") = inr oprId /\
      sample_catalog !! oprId = Some tup /\
      pg_oper_ownercheck env0 oprId = true /\
      oid f = oid (t_data tup) /\
      pg_operator s' = <[oprId := mkHeapTuple (oprId, N.succ (t_self tup).2) f]> sample_catalog /\
      o = oid (t_data tup) /\
      Forall is_lookup evs /\
      trace s' = [] ++ [EvSearchSysCache oprId] ++ evs ++
                 [EvTupleUpdate (t_self tup);
                  EvMakeOperatorDependencies (oid (t_data tup));
                  EvPostAlterHook oprId].
Proof.
  eexists _, _. split; [vm_compute; reflexivity|].
  apply (AlterOperator_success_trace env0
           (mkAlterOperatorStmt (opname "=")
              [mkDefElem "restrict" (Some (NString "eqsel"))])
           sample_catalog []); [exact sample_catalog_wf|].
  vm_compute. reflexivity.
Defined.

(** When the options are well formed but the user does not own the
    operator, ALTER OPERATOR fails with ACLCHECK_NOT_OWNER before looking
    up any estimator: it only fetched the row, and the rows are unchanged. *)
Theorem AlterOperator_not_owner env stmt m tr oprId tup a :
  LookupOperWithArgs env (opername stmt) = inr oprId ->
  m !! oprId = Some tup ->
  run (AlterOperator_options env AlterOptions_init (options stmt)) = inr a ->
  pg_oper_ownercheck env oprId = false ->
  AlterOperator env stmt (mkState m tr) =
  (mkState m (tr ++ [EvSearchSysCache oprId]),
   inl (AclError ACLCHECK_NOT_OWNER OBJECT_OPERATOR (oprname (t_data tup)))).
Proof.
  intros HL Ht Ho Hown. unfold AlterOperator.
  rewrite (bind_ok _ _ _ (mkState m tr) oprId) by (unfold lift; rewrite HL; reflexivity).
  rewrite (bind_ok _ _ _ _ _ (SearchSysCache1_run m tr oprId)), Ht.
  cbv beta iota.
  set (st := mkState m (tr ++ [EvSearchSysCache oprId])).
  assert (Hm : AlterOperator_modify env oprId (t_data tup) (options stmt) st =
               (st, inl (AclError ACLCHECK_NOT_OWNER OBJECT_OPERATOR
                           (oprname (t_data tup))))).
  { unfold AlterOperator_modify.
    rewrite (bind_ok _ _ _ st a)
      by (rewrite AlterOperator_options_state, Ho; reflexivity).
    rewrite Hown. reflexivity. }
  rewrite (bind_err _ _ _ _ _ Hm). reflexivity.
Qed.

Lemma AlterOperator_not_owner_witness :
  AlterOperator env_not_owner
    (mkAlterOperatorStmt (opname "=") [mkDefElem "restrict" (Some (NString "eqsel"))])
    sample_state =
  (mkState sample_catalog [EvSearchSysCache 96],
   inl (AclError ACLCHECK_NOT_OWNER OBJECT_OPERATOR "=")).
Proof.
  exact (AlterOperator_not_owner env_not_owner
           (mkAlterOperatorStmt (opname "=")
              [mkDefElem "restrict" (Some (NString "eqsel"))])
           sample_catalog [] 96 (mkHeapTuple (96, 0) form_eq)
           (mkAlterOptions ["eqsel"] true [] false)
           eq_refl eq_refl eq_refl eq_refl).
Defined.

(** ALTER OPERATOR with no options, run by the owner, writes a new version
    of the operator's row with the same contents, records its dependencies,
    calls the post-alter hook and returns the operator's OID. *)
Theorem AlterOperator_no_options env stmt m tr oprId tup :
  tids_wf m ->
  options stmt = [] ->
  LookupOperWithArgs env (opername stmt) = inr oprId ->
  m !! oprId = Some tup ->
  pg_oper_ownercheck env oprId = true ->
  AlterOperator env stmt (mkState m tr) =
  (mkState (<[oprId := mkHeapTuple (oprId, N.succ (t_self tup).2) (t_data tup)]> m)
     (tr ++ [EvSearchSysCache oprId; EvTupleUpdate (t_self tup);
             EvMakeOperatorDependencies (oid (t_data tup));
             EvPostAlterHook oprId]),
   inr (oid (t_data tup))).
Proof.
  intros Hwf Hopts HL Ht Hown. unfold AlterOperator.
  rewrite (bind_ok _ _ _ (mkState m tr) oprId) by (unfold lift; rewrite HL; reflexivity).
  rewrite (bind_ok _ _ _ _ _ (SearchSysCache1_run m tr oprId)), Ht.
  cbv beta iota.
  set (st := mkState m (tr ++ [EvSearchSysCache oprId])).
  assert (Hm : AlterOperator_modify env oprId (t_data tup) (options stmt) st =
               (st, inr (t_data tup))).
  { unfold AlterOperator_modify, bind, ret, raise, ereport.
    rewrite Hopts, Hown. cbn.
    destruct (OidIsValid (oprleft (t_data tup)) && OidIsValid (oprright (t_data tup)));
      destruct (oprresult (t_data tup) =? BOOLOID); reflexivity. }
  rewrite (bind_ok _ _ _ _ _ Hm). unfold st.
  rewrite (bind_ok _ _ _ _ _ (CatalogTupleUpdate_current _ _ _ _ _ Hwf Ht)).
  unfold makeOperatorDependencies, bind, emit, ret. cbn [pg_operator trace t_data].
  rewrite <- !app_assoc. reflexivity.
Qed.

Lemma AlterOperator_no_options_witness :
  AlterOperator env0 (mkAlterOperatorStmt (opname "=") []) sample_state =
  (mkState (<[96 := mkHeapTuple (96, 1) form_eq]> sample_catalog)
     [EvSearchSysCache 96; EvTupleUpdate (96, 0);
      EvMakeOperatorDependencies 96; EvPostAlterHook 96],
   inr 96).
Proof.
  exact (AlterOperator_no_options env0 (mkAlterOperatorStmt (opname "=") [])
           sample_catalog [] 96 (mkHeapTuple (96, 0) form_eq)
           sample_catalog_wf eq_refl eq_refl eq_refl eq_refl).
Defined.

(** Each estimator column an ALTER OPERATOR writes is left as it was,
    cleared, or set to a function that returns float8 and that the user
    may execute. *)
Theorem AlterOperator_estimators_valid env stmt m tr s' o oprId tup :
  tids_wf m ->
  LookupOperWithArgs env (opername stmt) = inr oprId ->
  m !! oprId = Some tup ->
  AlterOperator env stmt (mkState m tr) = (s', inr o) ->
  exists t', pg_operator s' !! oprId = Some t' /\
    valid_estimator env (oprrest (t_data tup)) (oprrest (t_data t')) /\
    valid_estimator env (oprjoin (t_data tup)) (oprjoin (t_data t')).
Proof.
  intros Hwf HL Ht H.
  destruct (AlterOperator_run env stmt m tr oprId tup Hwf HL Ht) as [tr' E].
  rewrite E in H.
  destruct (run (AlterOperator_modify env oprId (t_data tup) (options stmt)))
    as [e|f] eqn:Hr; [discriminate H|].
  injection H as <- _.
  eexists. split; [cbn [pg_operator]; apply lookup_insert_eq|]. cbn [t_data].
  rewrite run_AlterOperator_modify in Hr.
  destruct (run (AlterOperator_options env AlterOptions_init (options stmt)))
    as [e|a]; [discriminate Hr|].
  destruct (negb (pg_oper_ownercheck env oprId)); [discriminate Hr|].
  destruct (nonnil (alter_restrictionName a)) eqn:Hrn;
    [destruct (run (ValidateRestrictionEstimator env (alter_restrictionName a)))
       as [e|r] eqn:Hvr; [discriminate Hr|] | ];
  (destruct (nonnil (alter_joinName a)) eqn:Hjn;
    [destruct (run (ValidateJoinEstimator env (alter_joinName a)))
       as [e|j] eqn:Hvj; [discriminate Hr|] | ]);
  repeat match goal with
  | H : context [if ?b then inl _ else _] |- _ => destruct b; [discriminate H|]
  end;
  injection Hr as <-;
  repeat match goal with
  | H : run (ValidateRestrictionEstimator _ _) = inr _ |- _ =>
      apply ValidateRestrictionEstimator_ok in H
  | H : run (ValidateJoinEstimator _ _) = inr _ |- _ =>
      apply ValidateJoinEstimator_ok in H
  end;
  unfold valid_estimator;
  destruct (updateRestriction a), (updateJoin a); cbn; split; auto.
Qed.

Lemma AlterOperator_estimators_valid_witness :
  exists s' o,
    AlterOperator env0
      (mkAlterOperatorStmt (opname "=") [mkDefElem "restrict" (Some (NString "eqsel"))])
      sample_state = (s', inr o) /\
    exists t', pg_operator s' !! 96 = Some t' /\
      valid_estimator env0 (oprrest form_eq) (oprrest (t_data t')) /\
      valid_estimator env0 (oprjoin form_eq) (oprjoin (t_data t')).
Proof.
  eexists _, _. split; [vm_compute; reflexivity|].
  eapply (AlterOperator_estimators_valid env0
           (mkAlterOperatorStmt (opname "=")
              [mkDefElem "restrict" (Some (NString "eqsel"))])
           sample_catalog [] _ _ 96 (mkHeapTuple (96, 0) form_eq)
           sample_catalog_wf eq_refl eq_refl).
  vm_compute. reflexivity.
Defined.

(** CREATE OPERATOR resolves the schema and checks the CREATE privilege on
    it before it reads any attribute: when either fails, DefineOperator
    fails with that error, whatever the attribute list, and leaves the
    state as it was. *)
Theorem DefineOperator_namespace_first env create names ps s :
  (forall e, QualifiedNameGetCreationNamespace env names = inl e ->
     DefineOperator env create names ps s = (s, inl e)) /\
  (forall ns n, QualifiedNameGetCreationNamespace env names = inr (ns, n) ->
     acl_ok (pg_namespace_aclcheck_create env ns) = false ->
     DefineOperator env create names ps s =
     (s, inl (AclError (pg_namespace_aclcheck_create env ns) OBJECT_SCHEMA
                (get_namespace_name env ns)))).
Proof.
  split.
  - intros e HQ. unfold DefineOperator, lift at 1, bind at 1. rewrite HQ.
    reflexivity.
  - intros ns n HQ Hacl. unfold DefineOperator.
    rewrite (bind_ok _ _ _ s (ns, n)) by (unfold lift; rewrite HQ; reflexivity).
    cbv beta iota zeta. rewrite Hacl. reflexivity.
Qed.

Lemma DefineOperator_namespace_first_witness :
  DefineOperator env_no_create sample_OperatorCreate ["==="]
    [mkDefElem "nonsense" None] sample_state =
  (sample_state, inl (AclError ACLCHECK_NO_PRIV OBJECT_SCHEMA "public")).
Proof.
  exact (proj2 (DefineOperator_namespace_first env_no_create sample_OperatorCreate
                  ["==="] [mkDefElem "nonsense" None] sample_state)
           2200 "===" eq_refl eq_refl).
Defined.

Lemma DefineOperator_failure_keeps_rows_aux {A B} (m : M A) (k : A -> M B) s s' e :
  trace_only m ->
  (forall a st st' e', k a st = (st', inl e') -> pg_operator st' = pg_operator st) ->
  bind m k s = (s', inl e) -> pg_operator s' = pg_operator s.
Proof.
  intros Hm Hk H. unfold bind in H. destruct (Hm s) as [evs E]. rewrite E in H.
  destruct (run m) as [e1|a].
  - injection H as <- _. reflexivity.
  - apply Hk in H. exact H.
Qed.

(** A CREATE OPERATOR that fails leaves the rows of pg_operator as they
    were: only OperatorCreate, called last, writes them. *)
Theorem DefineOperator_failure_keeps_rows env create names ps s s' e :
  DefineOperator env create names ps s = (s', inl e) ->
  pg_operator s' = pg_operator s.
Proof.
  intros H. unfold DefineOperator in H.
  revert s s' e H.
  assert (Hgen : forall {A B} (m : M A) (k : A -> M B),
    trace_only m ->
    (forall a st st' e', k a st = (st', inl e') -> pg_operator st' = pg_operator st) ->
    forall st st' e', bind m k st = (st', inl e') -> pg_operator st' = pg_operator st).
  { intros A B m k Hm Hk st st' e' Hb.
    exact (DefineOperator_failure_keeps_rows_aux m k st st' e' Hm Hk Hb). }
  assert (Hcreate : forall a b c d e0 f g h i j k st st' e',
    OperatorCreate create a b c d e0 f g h i j k st = (st', inl e') ->
    pg_operator st' = pg_operator st).
  { intros a b c d e0 f g h i j k st st' e' Hc. unfold OperatorCreate in Hc.
    destruct (create a b c d e0 f g h i j k (pg_operator st)) as [er|[o rows]];
      [injection Hc as <- _; reflexivity|discriminate Hc]. }
  repeat (cbv beta iota zeta;
    first
      [ apply Hcreate
      | apply Hgen; [solve [solve_trace_only]|intros ? ? ? ?]
      | match goal with
        | x : (_ * _)%type |- _ => destruct x
        | |- context [if ?b then _ else _] => destruct b
        end ]).
Qed.

Lemma DefineOperator_failure_keeps_rows_witness :
  exists s' e,
    DefineOperator env0 sample_OperatorCreate ["==="]
      [mkDefElem "function" (Some (NString "int4eq"))] sample_state = (s', inl e) /\
    pg_operator s' = sample_catalog.
Proof.
  eexists _, _. split; [vm_compute; reflexivity|].
  eapply (DefineOperator_failure_keeps_rows env0 sample_OperatorCreate ["==="]
            [mkDefElem "function" (Some (NString "int4eq"))] sample_state).
  vm_compute. reflexivity.
Defined.

Lemma bind_success {A B} (m : M A) (k : A -> M B) s s' o :
  trace_only m -> bind m k s = (s', inr o) ->
  exists a evs, run m = inr a /\
    k a (mkState (pg_operator s) (trace s ++ evs)) = (s', inr o).
Proof.
  intros Hm H. unfold bind in H. destruct (Hm s) as [evs E]. rewrite E in H.
  destruct (run m) as [e|a]; [discriminate H|]. eauto.
Qed.

Ltac success_step H a Ha :=
  let H' := fresh in
  lazymatch type of H with
  | bind ?m ?k ?s = (?s', inr ?o) =>
      destruct (bind_success m k s s' o ltac:(solve [solve_trace_only]) H)
        as (a & ? & Ha & H');
      clear H; rename H' into H; cbv beta iota zeta in H;
      cbn [pg_operator trace] in H
  end.

Ltac check_ok Ha :=
  unfold ereport, aclcheck_type in Ha;
  lazymatch type of Ha with
  | run (if negb ?b then _ else _) = _ =>
      let E := fresh "Hok" in
      destruct b eqn:E; cbn [negb] in Ha;
      [|rewrite run_raise in Ha; discriminate Ha]
  end.

(** What a successful DefineOperator did, step by step. *)
Lemma DefineOperator_success_inv env create names ps s s' o :
  DefineOperator env create names ps s = (s', inr o) ->
  exists ns n p t1 t2 f r j,
    QualifiedNameGetCreationNamespace env names = inr (ns, n) /\
    acl_ok (pg_namespace_aclcheck_create env ns) = true /\
    run (DefineOperator_params env DefineParams_init ps) = inr p /\
    run (typenameTypeId_opt env (typeName1 p)) = inr t1 /\
    run (typenameTypeId_opt env (typeName2 p)) = inr t2 /\
    OidIsValid t2 = true /\
    (nonnull (typeName1 p) = true ->
       acl_ok (pg_type_aclcheck_usage env t1) = true) /\
    (nonnull (typeName2 p) = true ->
       acl_ok (pg_type_aclcheck_usage env t2) = true) /\
    run (LookupFuncName env (functionName p)
           (if OidIsValid t1 then 2 else 1)%nat
           (if OidIsValid t1 then [t1; t2] else [t2]) false) = inr f /\
    acl_ok (pg_proc_aclcheck_execute env f) = true /\
    acl_ok (pg_type_aclcheck_usage env (get_func_rettype env f)) = true /\
    (if nonnil (restrictionName p)
     then run (ValidateRestrictionEstimator env (restrictionName p)) = inr r
     else r = InvalidOid) /\
    (if nonnil (joinName p)
     then run (ValidateJoinEstimator env (joinName p)) = inr j
     else j = InvalidOid) /\
    create n ns t1 t2 f (commutatorName p) (negatorName p) r j
      (canMerge p) (canHash p) (pg_operator s) = inr (o, pg_operator s').
Proof.
  intros H. unfold DefineOperator in H.
  success_step H nsn HQ. rewrite run_lift in HQ. destruct nsn as [ns n].
  cbv beta iota in H.
  success_step H u1 Hacl. check_ok Hacl.
  success_step H p Hp.
  success_step H u2 Hfn.
  success_step H t1 H1.
  success_step H t2 H2.
  success_step H u3 Hboth.
  success_step H u4 Hpost. check_ok Hpost.
  success_step H u5 Hty1.
  success_step H u6 Hty2.
  assert (Hty1' : nonnull (typeName1 p) = true ->
                  acl_ok (pg_type_aclcheck_usage env t1) = true).
  { intros E. rewrite E in Hty1. check_ok Hty1. first [assumption | reflexivity]. }
  assert (Hty2' : nonnull (typeName2 p) = true ->
                  acl_ok (pg_type_aclcheck_usage env t2) = true).
  { intros E. rewrite E in Hty2. check_ok Hty2. first [assumption | reflexivity]. }
  match goal with E : OidIsValid t2 = _ |- _ => rename E into V2 end.
  destruct (OidIsValid t1) eqn:V1; cbn [negb] in H; rewrite ?V2 in H;
    cbn [negb] in H; cbv iota in H.
  all: success_step H f Hf; success_step H u7 Hexec; check_ok Hexec;
       success_step H u8 Hrt; check_ok Hrt;
       success_step H r Hr; success_step H j Hj;
       unfold OperatorCreate in H;
       destruct (create _ _ _ _ _ _ _ _ _ _ _ _) as [er|[o' rows]] eqn:Hc;
         [discriminate H|];
       injection H as <- <-;
       exists ns, n, p, t1, t2, f, r, j;
       repeat split; try assumption; try reflexivity;
       try (rewrite V1; assumption);
       try (destruct (nonnil (restrictionName p)); [assumption|];
            rewrite run_ret in Hr; injection Hr as <-; reflexivity);
       try (destruct (nonnil (joinName p)); [assumption|];
            rewrite run_ret in Hj; injection Hj as <-; reflexivity).
Qed.

(** A successful CREATE OPERATOR is the result of one call of
    OperatorCreate, and its arguments are those the code resolved: the
    creation namespace and name from the qualified name, the left type
    (InvalidOid when no leftarg is given) and the right type resolved by
    typenameTypeId, the function found by the lookup on those types, the
    commutator, negator, MERGES and HASHES of the definition list, and for
    each estimator InvalidOid when none is named, else a function returning
    float8 that the user may execute.  The rows after the command are those
    OperatorCreate returned. *)
Theorem DefineOperator_success_create env create names ps s s' o :
  DefineOperator env create names ps s = (s', inr o) ->
  exists ns n p t1 t2 fp r j,
    QualifiedNameGetCreationNamespace env names = inr (ns, n) /\
    run (DefineOperator_params env DefineParams_init ps) = inr p /\
    (typeName1 p = None /\ t1 = InvalidOid \/
     exists tn x, typeName1 p = Some tn /\ typenameTypeId env tn = inr x /\
                  t1 = Npos x) /\
    (exists tn x, typeName2 p = Some tn /\ typenameTypeId env tn = inr x /\
                  t2 = Npos x) /\
    func_lookup env (functionName p)
      (if OidIsValid t1 then [t1; t2] else [t2]) = Some fp /\
    (restrictionName p = [] /\ r = InvalidOid \/
     restrictionName p <> [] /\ get_func_rettype env r = FLOAT8OID /\
     acl_ok (pg_proc_aclcheck_execute env r) = true) /\
    (joinName p = [] /\ j = InvalidOid \/
     joinName p <> [] /\ get_func_rettype env j = FLOAT8OID /\
     acl_ok (pg_proc_aclcheck_execute env j) = true) /\
    create n ns t1 t2 (Npos fp) (commutatorName p) (negatorName p) r j
      (canMerge p) (canHash p) (pg_operator s) = inr (o, pg_operator s').
Proof.
  intros H.
  destruct (DefineOperator_success_inv env create names ps s s' o H)
    as (ns & n & p & t1 & t2 & f & r & j & HQ & _ & Hp & H1 & H2 & V2 &
        _ & _ & Hf & _ & _ & Hr & Hj & Hc).
  rewrite run_LookupFuncName in Hf.
  destruct (func_lookup env (functionName p) _) as [fp|] eqn:Ef;
    [|discriminate Hf].
  injection Hf as <-.
  exists ns, n, p, t1, t2, fp, r, j.
  split; [exact HQ|]. split; [exact Hp|].
  split.
  { destruct (OidIsValid t1) eqn:V1.
    - right. exact (typenameTypeId_opt_valid env _ _ H1 V1).
    - left. exact (typenameTypeId_opt_invalid env _ _ H1 V1). }
  split; [exact (typenameTypeId_opt_valid env _ _ H2 V2)|].
  split; [destruct (OidIsValid t1); exact Ef|].
  split.
  { destruct (restrictionName p) as [|x l]; cbn [nonnil] in Hr.
    - left. split; [reflexivity|exact Hr].
    - right. split; [discriminate|].
      exact (ValidateRestrictionEstimator_ok env _ _ Hr). }
  split.
  { destruct (joinName p) as [|x l]; cbn [nonnil] in Hj.
    - left. split; [reflexivity|exact Hj].
    - right. split; [discriminate|].
      exact (ValidateJoinEstimator_ok env _ _ Hj). }
  exact Hc.
Qed.

Lemma DefineOperator_success_create_witness :
  exists s',
    DefineOperator env0 sample_OperatorCreate ["==="]
      [mkDefElem "function" (Some (NString "int4eq"));
       mkDefElem "leftarg" (Some (NString "int4"));
       mkDefElem "rightarg" (Some (NString "int4"));
       mkDefElem "restrict" (Some (NString "eqsel"))] sample_state
    = (s', inr 700) /\
    exists ns n p t1 t2 fp r j,
      QualifiedNameGetCreationNamespace env0 ["==="] = inr (ns, n) /\
      run (DefineOperator_params env0 DefineParams_init
             [mkDefElem "function" (Some (NString "int4eq"));
              mkDefElem "leftarg" (Some (NString "int4"));
              mkDefElem "rightarg" (Some (NString "int4"));
              mkDefElem "restrict" (Some (NString "eqsel"))]) = inr p /\
      (typeName1 p = None /\ t1 = InvalidOid \/
       exists tn x, typeName1 p = Some tn /\ typenameTypeId env0 tn = inr x /\
                    t1 = Npos x) /\
      (exists tn x, typeName2 p = Some tn /\ typenameTypeId env0 tn = inr x /\
                    t2 = Npos x) /\
      func_lookup env0 (functionName p)
        (if OidIsValid t1 then [t1; t2] else [t2]) = Some fp /\
      (restrictionName p = [] /\ r = InvalidOid \/
       restrictionName p <> [] /\ get_func_rettype env0 r = FLOAT8OID /\
       acl_ok (pg_proc_aclcheck_execute env0 r) = true) /\
      (joinName p = [] /\ j = InvalidOid \/
       joinName p <> [] /\ get_func_rettype env0 j = FLOAT8OID /\
       acl_ok (pg_proc_aclcheck_execute env0 j) = true) /\
      sample_OperatorCreate n ns t1 t2 (Npos fp) (commutatorName p)
        (negatorName p) r j (canMerge p) (canHash p) sample_catalog
      = inr (700, pg_operator s').
Proof.
  eexists. split; [vm_compute; reflexivity|].
  apply (DefineOperator_success_create env0 sample_OperatorCreate ["==="]
           [mkDefElem "function" (Some (NString "int4eq"));
            mkDefElem "leftarg" (Some (NString "int4"));
            mkDefElem "rightarg" (Some (NString "int4"));
            mkDefElem "restrict" (Some (NString "eqsel"))] sample_state).
  vm_compute. reflexivity.
Defined.

(** A successful CREATE OPERATOR has passed every permission check of the
    code: CREATE on the target namespace, USAGE on each operand type that
    was named, EXECUTE on the operator's function, USAGE on its result
    type, and EXECUTE on each estimator that was named; the types, the
    function and the estimators are the ones handed to OperatorCreate. *)
Theorem DefineOperator_success_privileges env create names ps s s' o :
  DefineOperator env create names ps s = (s', inr o) ->
  exists ns n p t1 t2 f r j,
    QualifiedNameGetCreationNamespace env names = inr (ns, n) /\
    run (DefineOperator_params env DefineParams_init ps) = inr p /\
    acl_ok (pg_namespace_aclcheck_create env ns) = true /\
    (typeName1 p <> None -> acl_ok (pg_type_aclcheck_usage env t1) = true) /\
    acl_ok (pg_type_aclcheck_usage env t2) = true /\
    acl_ok (pg_proc_aclcheck_execute env f) = true /\
    acl_ok (pg_type_aclcheck_usage env (get_func_rettype env f)) = true /\
    (restrictionName p <> [] ->
       acl_ok (pg_proc_aclcheck_execute env r) = true) /\
    (joinName p <> [] ->
       acl_ok (pg_proc_aclcheck_execute env j) = true) /\
    create n ns t1 t2 f (commutatorName p) (negatorName p) r j
      (canMerge p) (canHash p) (pg_operator s) = inr (o, pg_operator s').
Proof.
  intros H.
  destruct (DefineOperator_success_inv env create names ps s s' o H)
    as (ns & n & p & t1 & t2 & f & r & j & HQ & Hns & Hp & H1 & H2 & V2 &
        Hu1 & Hu2 & _ & Hx & Hrt & Hr & Hj & Hc).
  exists ns, n, p, t1, t2, f, r, j.
  split; [exact HQ|]. split; [exact Hp|]. split; [exact Hns|].
  split.
  { intros N. apply Hu1. destruct (typeName1 p); [reflexivity|].
    exfalso. apply N. reflexivity. }
  split.
  { apply Hu2.
    destruct (typenameTypeId_opt_valid env _ _ H2 V2) as (tn & x & -> & _).
    reflexivity. }
  split; [exact Hx|]. split; [exact Hrt|].
  split.
  { intros N. destruct (restrictionName p) as [|x l]; [congruence|].
    exact (proj2 (ValidateRestrictionEstimator_ok env _ _ Hr)). }
  split.
  { intros N. destruct (joinName p) as [|x l]; [congruence|].
    exact (proj2 (ValidateJoinEstimator_ok env _ _ Hj)). }
  exact Hc.
Qed.

Lemma DefineOperator_success_privileges_witness :
  exists s',
    DefineOperator env0 sample_OperatorCreate ["==="]
      [mkDefElem "function" (Some (NString "int4eq"));
       mkDefElem "leftarg" (Some (NString "int4"));
       mkDefElem "rightarg" (Some (NString "int4"));
       mkDefElem "restrict" (Some (NString "eqsel"));
       mkDefElem "join" (Some (NString "eqjoinsel"))] sample_state
    = (s', inr 700) /\
    exists ns n p t1 t2 f r j,
      QualifiedNameGetCreationNamespace env0 ["==="] = inr (ns, n) /\
      run (DefineOperator_params env0 DefineParams_init
             [mkDefElem "function" (Some (NString "int4eq"));
              mkDefElem "leftarg" (Some (NString "int4"));
              mkDefElem "rightarg" (Some (NString "int4"));
              mkDefElem "restrict" (Some (NString "eqsel"));
              mkDefElem "join" (Some (NString "eqjoinsel"))]) = inr p /\
      acl_ok (pg_namespace_aclcheck_create env0 ns) = true /\
      (typeName1 p <> None -> acl_ok (pg_type_aclcheck_usage env0 t1) = true) /\
      acl_ok (pg_type_aclcheck_usage env0 t2) = true /\
      acl_ok (pg_proc_aclcheck_execute env0 f) = true /\
      acl_ok (pg_type_aclcheck_usage env0 (get_func_rettype env0 f)) = true /\
      (restrictionName p <> [] ->
         acl_ok (pg_proc_aclcheck_execute env0 r) = true) /\
      (joinName p <> [] ->
         acl_ok (pg_proc_aclcheck_execute env0 j) = true) /\
      sample_OperatorCreate n ns t1 t2 f (commutatorName p) (negatorName p)
        r j (canMerge p) (canHash p) sample_catalog = inr (700, pg_operator s').
Proof.
  eexists. split; [vm_compute; reflexivity|].
  apply (DefineOperator_success_privileges env0 sample_OperatorCreate ["==="]
           [mkDefElem "function" (Some (NString "int4eq"));
            mkDefElem "leftarg" (Some (NString "int4"));
            mkDefElem "rightarg" (Some (NString "int4"));
       mkDefElem "restrict" (Some (NString "eqsel"));
       mkDefElem "join" (Some (NString "eqjoinsel"))] sample_state).
  vm_compute. reflexivity.
Defined.

(** A restriction estimator that ValidateRestrictionEstimator accepts is
    the function found under the 4-argument restriction signature; it
    returns float8 and the user may execute it.  The pg_operator rows are
    left as they were. *)
Theorem ValidateRestrictionEstimator_accepts env n s s' r :
  ValidateRestrictionEstimator env n s = (s', inr r) ->
  pg_operator s' = pg_operator s /\
  (exists f, func_lookup env n RESTSEL_ARGS = Some f /\ r = Npos f) /\
  get_func_rettype env r = FLOAT8OID /\
  acl_ok (pg_proc_aclcheck_execute env r) = true.
Proof.
  intros H.
  destruct (trace_only_ValidateRestrictionEstimator env n s) as [evs E].
  rewrite E in H. injection H as <- Hr.
  split; [reflexivity|].
  rewrite run_ValidateRestrictionEstimator_checks in Hr.
  destruct (func_lookup env n RESTSEL_ARGS) as [f|]; [|discriminate Hr].
  destruct (estimator_checks_ok env _ n f r Hr) as (-> & Hrt & Hx).
  split; [eauto|]. split; assumption.
Qed.

Lemma ValidateRestrictionEstimator_accepts_witness :
  exists s' r,
    ValidateRestrictionEstimator env0 ["eqsel"] sample_state = (s', inr r) /\
    pg_operator s' = pg_operator sample_state /\
    (exists f, func_lookup env0 ["eqsel"] RESTSEL_ARGS = Some f /\ r = Npos f) /\
    get_func_rettype env0 r = FLOAT8OID /\
    acl_ok (pg_proc_aclcheck_execute env0 r) = true.
Proof.
  eexists _, _. split; [vm_compute; reflexivity|].
  eapply (ValidateRestrictionEstimator_accepts env0 ["eqsel"] sample_state).
  vm_compute. reflexivity.
Defined.

(** A join estimator that ValidateJoinEstimator accepts is the one function
    found under exactly one of the two join signatures (5 arguments, or the
    older 4); a name with functions under both is never accepted.  The
    function returns float8 and the user may execute it, and the
    pg_operator rows are left as they were. *)
Theorem ValidateJoinEstimator_accepts env n s s' j :
  ValidateJoinEstimator env n s = (s', inr j) ->
  pg_operator s' = pg_operator s /\
  (exists f,
     (func_lookup env n JOINSEL_ARGS = Some f /\
      func_lookup env n (firstn 4 JOINSEL_ARGS) = None \/
      func_lookup env n JOINSEL_ARGS = None /\
      func_lookup env n (firstn 4 JOINSEL_ARGS) = Some f) /\ j = Npos f) /\
  get_func_rettype env j = FLOAT8OID /\
  acl_ok (pg_proc_aclcheck_execute env j) = true.
Proof.
  intros H.
  destruct (trace_only_ValidateJoinEstimator env n s) as [evs E].
  rewrite E in H. injection H as <- Hj.
  split; [reflexivity|].
  rewrite run_ValidateJoinEstimator_checks in Hj.
  destruct (func_lookup env n JOINSEL_ARGS) as [f5|] eqn:E5,
           (func_lookup env n (firstn 4 JOINSEL_ARGS)) as [f4|] eqn:E4;
    try discriminate Hj.
  - destruct (estimator_checks_ok env _ n f5 j Hj) as (-> & Hrt & Hx).
    split; [eauto|]. split; assumption.
  - destruct (estimator_checks_ok env _ n f4 j Hj) as (-> & Hrt & Hx).
    split; [eauto|]. split; assumption.
Qed.

Lemma ValidateJoinEstimator_accepts_witness :
  exists s' j,
    ValidateJoinEstimator env0 ["oldjoinsel"] sample_state = (s', inr j) /\
    pg_operator s' = pg_operator sample_state /\
    (exists f,
       (func_lookup env0 ["oldjoinsel"] JOINSEL_ARGS = Some f /\
        func_lookup env0 ["oldjoinsel"] (firstn 4 JOINSEL_ARGS) = None \/
        func_lookup env0 ["oldjoinsel"] JOINSEL_ARGS = None /\
        func_lookup env0 ["oldjoinsel"] (firstn 4 JOINSEL_ARGS) = Some f) /\
       j = Npos f) /\
    get_func_rettype env0 j = FLOAT8OID /\
    acl_ok (pg_proc_aclcheck_execute env0 j) = true.
Proof.
  eexists _, _. split; [vm_compute; reflexivity|].
  eapply (ValidateJoinEstimator_accepts env0 ["oldjoinsel"] sample_state).
  vm_compute. reflexivity.
Defined.
